(** * basic.py: lexer and recursive-descent parser for arithmetic expressions

    A shallow embedding of [src/basic.py] (classes [Position], [Token],
    [Error], [Lexer], [ParserResult], [Parser] and the entry point [run])
    together with the properties of the specification that are settled
    against it.

    Conventions of the embedding.
    - A Python [str] is a [string]; one [ascii] stands for one character.
    - Python integers ([idx], [ln], [col], [tok_idx], [dot_count]) are [Z].
    - An attribute that [__init__] may leave unset ([Token.pos_start],
      [Token.pos_end], [Parser.current_tok]) is an [option]; reading it while
      unset raises [AttributeError], which the embedding returns as
      [Raised AttributeError].
    - The objects are mutated in place in the source; here every method
      returns the new state.  Positions are copied ([Position.copy]) before
      they are stored wherever the live cursor is advanced afterwards, so
      plain values track the source exactly.
    - [while] loops and the recursion of the grammar rules carry a fuel
      argument; [OutOfFuel] is the outcome of a loop that did not finish
      within it.  The entry points compute a fuel from their input and the
      theorems show the outcome is never [OutOfFuel] where they claim a
      result.
    - [print(tokens)] in [run] writes to standard output and does not
      influence the result; it is left out.
    - Two limits of the interpreter bear on the program.  [int] refuses a
      text of more than [sys.int_max_str_digits] digits (4300 unless
      changed) with [ValueError]: [py_int] has that limit.  The depth of
      recursion is bounded as well, and the grammar rules recurse once per
      nesting level of their input; that limit depends on the caller's
      stack and is not modelled, so what is stated of the parser for every
      nesting depth is stated of the runs that return. *)

From Stdlib Require Import ZArith List Bool String Ascii DecimalString Lia.
Import ListNotations.

Open Scope string_scope.
Open Scope list_scope.
Open Scope Z_scope.

(** ** Outcomes: a small error monad *)

Inductive exn : Type :=
| AttributeError
| ValueError.

Inductive outcome (A : Type) : Type :=
| Returned (a : A)
| Raised (e : exn)
| OutOfFuel.

Arguments Returned {A} a.
Arguments Raised {A} e.
Arguments OutOfFuel {A}.

Definition bind {A B : Type} (m : outcome A) (k : A -> outcome B) : outcome B :=
  match m with
  | Returned a => k a
  | Raised e => Raised e
  | OutOfFuel => OutOfFuel
  end.

Notation "x <- m ;; k" := (bind m (fun x => k))
  (at level 61, m at next level, right associativity).
Notation "' p <- m ;; k" := (bind m (fun p => k))
  (at level 61, p pattern, m at next level, right associativity).

(** ** Constants *)

Definition DIGITS : string := "0123456789".

(** [c in s] for a one-character [c]: membership of the character. *)
Fixpoint char_in (c : ascii) (s : string) : bool :=
  match s with
  | EmptyString => false
  | String d s' => Ascii.eqb c d || char_in c s'
  end.

(** The token types [TT_INT] ... [TT_EOF]; the source names them by
    pairwise distinct string constants and only ever compares them. *)
Inductive TokenType : Type :=
| TT_INT | TT_FLOAT | TT_PLUS | TT_MINUS | TT_MUL | TT_DIV
| TT_LPAREN | TT_RPAREN | TT_EOF.

Definition TokenType_eqb (a b : TokenType) : bool :=
  match a, b with
  | TT_INT, TT_INT | TT_FLOAT, TT_FLOAT | TT_PLUS, TT_PLUS
  | TT_MINUS, TT_MINUS | TT_MUL, TT_MUL | TT_DIV, TT_DIV
  | TT_LPAREN, TT_LPAREN | TT_RPAREN, TT_RPAREN | TT_EOF, TT_EOF => true
  | _, _ => false
  end.

(** [t in ops] for a tuple of token types. *)
Definition type_in (t : TokenType) (ops : list TokenType) : bool :=
  existsb (TokenType_eqb t) ops.

(** ** Position *)

Record Position : Type := mkPosition {
  idx : Z;
  ln : Z;
  col : Z;
  fn : string;
  ftxt : string
}.

Definition newline : ascii := "010"%char.

(** [Position.advance(current_char)]: index and column move on; a newline
    resets the column and moves to the next line.  [current_char] is [None]
    for Python's [None]. *)
Definition Position_advance (p : Position) (current_char : option ascii)
  : Position :=
  let idx1 := idx p + 1 in
  let col1 := col p + 1 in
  match current_char with
  | Some c =>
      if Ascii.eqb c newline
      then mkPosition idx1 (ln p + 1) 0 (fn p) (ftxt p)
      else mkPosition idx1 (ln p) col1 (fn p) (ftxt p)
  | None => mkPosition idx1 (ln p) col1 (fn p) (ftxt p)
  end.

Definition Position_copy (p : Position) : Position :=
  mkPosition (idx p) (ln p) (col p) (fn p) (ftxt p).

(** ** Error *)

Record Error : Type := mkError {
  err_pos_start : Position;
  err_pos_end : Position;
  error_name : string;
  details : string
}.

Definition IllegalCharError (pos_start pos_end : Position) (detail : string)
  : Error :=
  mkError pos_start pos_end "Illegal Character" detail.

Definition InvalidSyntaxError (pos_start pos_end : Position) (detail : string)
  : Error :=
  mkError pos_start pos_end "Invalid Syntax" detail.

(** [str] of an [int]: its decimal digits, with a minus sign when
    negative. *)
Definition py_str_int (z : Z) : string := NilZero.string_of_int (Z.to_int z).

(** [Error.as_string]. *)
Definition as_string (e : Error) : string :=
  let res := (error_name e ++ ": " ++ details e)%string in
  (res ++ ("File " ++ fn (err_pos_start e) ++ ", line "
           ++ py_str_int (ln (err_pos_end e) + 1)))%string.

(** ** Token *)

(** The value of a token: [None], the [int] of an integer literal, or the
    [float] of a decimal literal.  The double that Python's [float] makes of
    a literal is kept symbolic: [VFloat s] is [float(s)]. *)
Inductive Value : Type :=
| VNone
| VInt (n : Z)
| VFloat (num_str : string).

Record Token : Type := mkToken {
  type_ : TokenType;
  value : Value;
  pos_start : option Position;
  pos_end : option Position
}.

(** [Token.__init__(type_, value, pos_start, pos_end)].  With a [pos_start]
    the token spans one character: the end is a copy of the start advanced
    once ([self.value] is [None] or a number there, never a newline).  A
    [pos_end] that is given replaces the end.  Without either argument the
    attribute is not created. *)
Definition Token_init (type_ : TokenType) (value : Value)
  (pos_start pos_end : option Position) : Token :=
  let start_ := option_map Position_copy pos_start in
  let end1 := option_map (fun p => Position_advance (Position_copy p) None)
                pos_start in
  let end2 := match pos_end with
              | Some q => Some q
              | None => end1
              end in
  mkToken type_ value start_ end2.

(** Reading [tok.pos_start] and [tok.pos_end]. *)
Definition get_pos_start (t : Token) : outcome Position :=
  match pos_start t with
  | Some p => Returned p
  | None => Raised AttributeError
  end.

Definition get_pos_end (t : Token) : outcome Position :=
  match pos_end t with
  | Some p => Returned p
  | None => Raised AttributeError
  end.

(** ** Python's [int] and [float] on what [make_number] hands them

    [num_str] holds decimal digits and at most one dot. [int] wants at least
    one digit and nothing else; [float] wants at least one digit around its
    dot.  Otherwise they raise [ValueError].  [int] also raises
    [ValueError] when the string has more digits than the interpreter
    allows in a conversion: [sys.int_max_str_digits], 4300 unless it is set
    otherwise (0 would lift the limit).  [float] has no such limit. *)

Definition digit_value (c : ascii) : Z :=
  Z.of_nat (nat_of_ascii c) - 48.

Fixpoint all_digits (s : string) : bool :=
  match s with
  | EmptyString => true
  | String c s' => char_in c DIGITS && all_digits s'
  end.

Fixpoint has_digit (s : string) : bool :=
  match s with
  | EmptyString => false
  | String c s' => char_in c DIGITS || has_digit s'
  end.

Fixpoint int_acc (acc : Z) (s : string) : Z :=
  match s with
  | EmptyString => acc
  | String c s' => int_acc (10 * acc + digit_value c) s'
  end.

Definition int_max_str_digits : Z := 4300.

(** More digits than [int] converts. *)
Definition too_long (num_str : string) : bool :=
  (0 <? int_max_str_digits)
  && (int_max_str_digits <? Z.of_nat (String.length num_str)).

Definition py_int (num_str : string) : outcome Z :=
  if all_digits num_str && has_digit num_str
  then if too_long num_str
       then Raised ValueError
       else Returned (int_acc 0 num_str)
  else Raised ValueError.

Definition py_float (num_str : string) : outcome Value :=
  if has_digit num_str
  then Returned (VFloat num_str)
  else Raised ValueError.

(** ** Lexer *)

Record Lexer : Type := mkLexer {
  lx_fn : string;
  text : string;
  pos : Position;
  current_char : option ascii
}.

(** [Lexer.advance]: move the cursor, then read the character under it, or
    [None] past the end.  The index is never negative when the text is
    read: it starts at -1 and is incremented first. *)
Definition Lexer_advance (l : Lexer) : Lexer :=
  let p := Position_advance (pos l) (current_char l) in
  let c := if idx p <? Z.of_nat (String.length (text l))
           then String.get (Z.to_nat (idx p)) (text l)
           else None in
  mkLexer (lx_fn l) (text l) p c.

Definition Lexer_init (fn text : string) : Lexer :=
  Lexer_advance (mkLexer fn text (mkPosition (-1) 0 (-1) fn text) None).

(** The [while] loop of [make_number]; it returns the lexer, [num_str]
    and [dot_count] on leaving the loop. *)
Fixpoint make_number_loop (fuel : nat) (l : Lexer) (num_str : string)
  (dot_count : Z) : outcome (Lexer * string * Z) :=
  match fuel with
  | O => OutOfFuel
  | S fuel' =>
      match current_char l with
      | Some c =>
          if char_in c (DIGITS ++ ".")%string then
            if Ascii.eqb c "."%char then
              if dot_count =? 1 then Returned (l, num_str, dot_count)
              else make_number_loop fuel' (Lexer_advance l)
                     (num_str ++ ".")%string (dot_count + 1)
            else make_number_loop fuel' (Lexer_advance l)
                   (num_str ++ String c "")%string dot_count
          else Returned (l, num_str, dot_count)
      | None => Returned (l, num_str, dot_count)
      end
  end.

(** [Lexer.make_number]: the token is built from type and value alone, no
    position is handed to [Token]. *)
Definition make_number (fuel : nat) (l : Lexer) : outcome (Lexer * Token) :=
  '(l1, num_str, dot_count) <- make_number_loop fuel l "" 0 ;;
  if dot_count =? 0 then
    n <- py_int num_str ;;
    Returned (l1, Token_init TT_INT (VInt n) None None)
  else
    f <- py_float num_str ;;
    Returned (l1, Token_init TT_FLOAT f None None).

(** A single-character token at the cursor, then one step forward. *)
Definition emit (l : Lexer) (tokens : list Token) (t : TokenType)
  : Lexer * list Token :=
  (Lexer_advance l, tokens ++ [Token_init t VNone (Some (pos l)) None]).

(** The [while] loop of [make_tokens] and what follows it. *)
Fixpoint make_tokens_loop (fuel : nat) (l : Lexer) (tokens : list Token)
  : outcome (list Token * option Error) :=
  match fuel with
  | O => OutOfFuel
  | S fuel' =>
      match current_char l with
      | None =>
          Returned (tokens ++ [Token_init TT_EOF VNone (Some (pos l)) None],
                    None)
      | Some c =>
          if Ascii.eqb c " "%char || Ascii.eqb c "009"%char then
            make_tokens_loop fuel' (Lexer_advance l) tokens
          else if char_in c DIGITS then
            '(l1, t) <- make_number fuel l ;;
            make_tokens_loop fuel' l1 (tokens ++ [t])
          else if Ascii.eqb c "+"%char then
            let '(l1, ts) := emit l tokens TT_PLUS in
            make_tokens_loop fuel' l1 ts
          else if Ascii.eqb c "-"%char then
            let '(l1, ts) := emit l tokens TT_MINUS in
            make_tokens_loop fuel' l1 ts
          else if Ascii.eqb c "*"%char then
            let '(l1, ts) := emit l tokens TT_MUL in
            make_tokens_loop fuel' l1 ts
          else if Ascii.eqb c "/"%char then
            let '(l1, ts) := emit l tokens TT_DIV in
            make_tokens_loop fuel' l1 ts
          else if Ascii.eqb c "("%char then
            let '(l1, ts) := emit l tokens TT_LPAREN in
            make_tokens_loop fuel' l1 ts
          else if Ascii.eqb c ")"%char then
            let '(l1, ts) := emit l tokens TT_RPAREN in
            make_tokens_loop fuel' l1 ts
          else
            let pos_start := Position_copy (pos l) in
            let char := c in
            let l1 := Lexer_advance l in
            Returned ([], Some (IllegalCharError pos_start (pos l1)
                                  ("'" ++ String char "'")%string))
      end
  end.

(** Every turn of either loop moves the cursor at least one character on,
    so one more than the length of the text is fuel enough. *)
Definition make_tokens (l : Lexer) : outcome (list Token * option Error) :=
  make_tokens_loop (S (String.length (text l))) l [].

Definition tokenize (fn text : string) : outcome (list Token * option Error) :=
  make_tokens (Lexer_init fn text).


(** ** Nodes

    A child is whatever [ParserResult.register] handed back, which is
    Python's [None] after a failed sub-rule: the children are [option]s. *)

#[warnings="-register-all"] Inductive Node : Type :=
| NumberNode (tok : Token)
| BinOpNode (left_node : option Node) (op_tok : Token)
    (right_node : option Node)
| UnaryOpNode (op_tok : Token) (node_ : option Node).

(** ** ParserResult *)

Record ParserResult : Type := mkParserResult {
  error : option Error;
  node : option Node
}.

Definition ParserResult_init : ParserResult := mkParserResult None None.

Definition success (self : ParserResult) (n : option Node) : ParserResult :=
  mkParserResult (error self) n.

Definition failure (self : ParserResult) (e : Error) : ParserResult :=
  mkParserResult (Some e) (node self).

(** [register] of a [ParserResult]: an error of [res] overwrites the one
    held, whatever it was; the node of [res] is handed back.  ([register]
    of anything else, such as the token [advance] returns, changes nothing
    and is not spelled out in the grammar rules below.) *)
Definition register (self res : ParserResult)
  : ParserResult * option Node :=
  match error res with
  | Some e => (mkParserResult (Some e) (node self), node res)
  | None => (self, node res)
  end.

Definition has_error (r : ParserResult) : bool :=
  match error r with
  | Some _ => true
  | None => false
  end.

(** ** Parser *)

Record Parser : Type := mkParser {
  tokens : list Token;
  tok_idx : Z;
  current_tok : option Token
}.

(** The assignments of [Parser.advance]. *)
Definition advance_state (p : Parser) : Parser :=
  let i := tok_idx p + 1 in
  if i <? Z.of_nat (List.length (tokens p))
  then mkParser (tokens p) i (nth_error (tokens p) (Z.to_nat i))
  else mkParser (tokens p) i (current_tok p).

(** Reading [self.current_tok]. *)
Definition get_current_tok (p : Parser) : outcome Token :=
  match current_tok p with
  | Some t => Returned t
  | None => Raised AttributeError
  end.

(** [Parser.advance]: the assignments, then [return self.current_tok]. *)
Definition Parser_advance (p : Parser) : outcome (Parser * Token) :=
  let p1 := advance_state p in
  t <- get_current_tok p1 ;;
  Returned (p1, t).

Definition Parser_init (tokens : list Token) : outcome Parser :=
  '(p, _) <- Parser_advance (mkParser tokens (-1) None) ;;
  Returned p.

(** [InvalidSyntaxError(self.current_tok.pos_start, self.current_tok.pos_end,
    detail)] handed to [res.failure]. *)
Definition fail_at_current (p : Parser) (res : ParserResult) (detail : string)
  : outcome (Parser * ParserResult) :=
  t <- get_current_tok p ;;
  ps <- get_pos_start t ;;
  pe <- get_pos_end t ;;
  Returned (p, failure res (InvalidSyntaxError ps pe detail)).

Definition rule : Type := Parser -> outcome (Parser * ParserResult).

(** The [while] loop of [bin_op] and the [return] after it. *)
Fixpoint bin_op_loop (fuel : nat) (func : rule) (ops : list TokenType)
  (p : Parser) (res : ParserResult) (left_ : option Node)
  : outcome (Parser * ParserResult) :=
  match fuel with
  | O => OutOfFuel
  | S fuel' =>
      t <- get_current_tok p ;;
      if type_in (type_ t) ops then
        let op_tok := t in
        '(p1, _) <- Parser_advance p ;;
        '(p2, r) <- func p1 ;;
        let '(res1, right_) := register res r in
        bin_op_loop fuel' func ops p2 res1
          (Some (BinOpNode left_ op_tok right_))
      else Returned (p, success res left_)
  end.

Definition bin_op (fuel : nat) (func : rule) (ops : list TokenType)
  (p : Parser) : outcome (Parser * ParserResult) :=
  let res := ParserResult_init in
  '(p1, r) <- func p ;;
  let '(res1, left_) := register res r in
  bin_op_loop fuel func ops p1 res1 left_.

(** The grammar rules [factor], [term] and [expr]. *)
Fixpoint factor (fuel : nat) (p : Parser) {struct fuel}
  : outcome (Parser * ParserResult) :=
  match fuel with
  | O => OutOfFuel
  | S fuel' =>
      let res := ParserResult_init in
      tok <- get_current_tok p ;;
      if type_in (type_ tok) [TT_INT; TT_FLOAT] then
        '(p1, _) <- Parser_advance p ;;
        Returned (p1, success res (Some (NumberNode tok)))
      else if type_in (type_ tok) [TT_PLUS; TT_MINUS] then
        '(p1, _) <- Parser_advance p ;;
        '(p2, r) <- factor fuel' p1 ;;
        let '(res1, factor_) := register res r in
        if has_error res1 then Returned (p2, res1)
        else Returned (p2, success res1 (Some (UnaryOpNode tok factor_)))
      else if TokenType_eqb (type_ tok) TT_LPAREN then
        '(p1, _) <- Parser_advance p ;;
        '(p2, r) <- expr fuel' p1 ;;
        let '(res1, expr_) := register res r in
        if has_error res1 then Returned (p2, res1)
        else
          t2 <- get_current_tok p2 ;;
          if TokenType_eqb (type_ t2) TT_RPAREN then
            '(p3, _) <- Parser_advance p2 ;;
            Returned (p3, success res1 expr_)
          else fail_at_current p2 res1 "Expected ')' "
      else fail_at_current p res "Expected int or float "
  end

with term (fuel : nat) (p : Parser) {struct fuel}
  : outcome (Parser * ParserResult) :=
  match fuel with
  | O => OutOfFuel
  | S fuel' => bin_op fuel' (factor fuel') [TT_MUL; TT_DIV] p
  end

with expr (fuel : nat) (p : Parser) {struct fuel}
  : outcome (Parser * ParserResult) :=
  match fuel with
  | O => OutOfFuel
  | S fuel' => bin_op fuel' (term fuel') [TT_PLUS; TT_MINUS] p
  end.

(** [Parser.parse]. *)
Definition parse (fuel : nat) (p : Parser) : outcome (Parser * ParserResult) :=
  '(p1, res) <- expr fuel p ;;
  if negb (has_error res) then
    t <- get_current_tok p1 ;;
    if negb (TokenType_eqb (type_ t) TT_EOF)
    then fail_at_current p1 res "Expected '+' '-' '*' or '/' "
    else Returned (p1, res)
  else Returned (p1, res).

(** Fuel for a token list: a rule uses up at most three levels of the
    recursion and one turn of a loop for a token it consumes. *)
Definition parse_fuel (tokens : list Token) : nat :=
  (3 * List.length tokens + 3)%nat.

(** ** run

    The lexing error is bound and never looked at: the parser is built and
    started on whatever token list [make_tokens] returned. *)
Definition run (fn text : string) : outcome (option Node * option Error) :=
  let lexer := Lexer_init fn text in
  '(tokens, error_) <- make_tokens lexer ;;
  parser <- Parser_init tokens ;;
  '(_, ast) <- parse (parse_fuel tokens) parser ;;
  Returned (node ast, error ast).


(** ** Vocabulary of the specification *)

Definition tab : ascii := "009"%char.

(** The characters the specification lists as legal:
    digits, dot, the four operators, the parentheses, space and tab. *)
Definition LEGAL : string := ("0123456789.+-*/() " ++ String tab "")%string.

Definition legal (c : ascii) : bool := char_in c LEGAL.

Fixpoint has_illegal (s : string) : bool :=
  match s with
  | EmptyString => false
  | String c s' => negb (legal c) || has_illegal s'
  end.

Definition blank (c : ascii) : bool := Ascii.eqb c " "%char || Ascii.eqb c tab.

Fixpoint all_blank (s : string) : bool :=
  match s with
  | EmptyString => true
  | String c s' => blank c && all_blank s'
  end.

(** [digit+]. *)
Definition digits1 (s : string) : bool := all_digits s && has_digit s.

(** The text before the first dot, and the text after it when there is
    one. *)
Fixpoint split_at_dot (s : string) : string * option string :=
  match s with
  | EmptyString => (EmptyString, None)
  | String c s' =>
      if Ascii.eqb c "."%char then (EmptyString, Some s')
      else let '(a, b) := split_at_dot s' in (String c a, b)
  end.

(** [digit+('.'digit+)?]. *)
Definition decimal_literal (s : string) : bool :=
  match split_at_dot s with
  | (ds, None) => digits1 ds
  | (ds, Some fs) => digits1 ds && digits1 fs
  end.

(** The number token the specification expects for a decimal literal. *)
Definition number_token (s : string) : Token :=
  if char_in "."%char s
  then mkToken TT_FLOAT (VFloat s) None None
  else mkToken TT_INT (VInt (int_acc 0 s)) None None.

(** ** The lexer cursor on a text split in two

    While the scan goes on no newline has been passed (a newline is an
    illegal character and ends the scan), so line 0 is never left and the
    column is the index. *)

Definition hd_char (s : string) : option ascii :=
  match s with
  | EmptyString => None
  | String c _ => Some c
  end.

Definition cursor (fn txt : string) (n : nat) : Position :=
  mkPosition (Z.of_nat n) 0 (Z.of_nat n) fn txt.

(** The lexer of [fn] and [pre ++ suf] standing on the first character of
    [suf]. *)
Definition lexer_on (fn pre suf : string) : Lexer :=
  mkLexer fn (pre ++ suf)%string
    (cursor fn (pre ++ suf)%string (String.length pre)) (hd_char suf).

(** The end-of-input token for a text without newline. *)
Definition eof_token (fn txt : string) : Token :=
  Token_init TT_EOF VNone (Some (cursor fn txt (String.length txt))) None.

(** ** The two loops read off the text

    [scan_number suf dot_count] is what the loop of [make_number] does to a
    lexer standing on [suf]: the characters it appends to [num_str], the
    text it leaves, and the final [dot_count]. *)
Fixpoint scan_number (suf : string) (dot_count : Z) : string * string * Z :=
  match suf with
  | EmptyString => (EmptyString, EmptyString, dot_count)
  | String c s =>
      if char_in c (DIGITS ++ ".")%string then
        if Ascii.eqb c "."%char then
          if dot_count =? 1 then (EmptyString, suf, dot_count)
          else let '(n, r, d) := scan_number s (dot_count + 1) in
               (String c n, r, d)
        else let '(n, r, d) := scan_number s dot_count in
             (String c n, r, d)
      else (EmptyString, suf, dot_count)
  end.

(** The token [make_number] builds from the scanned characters. *)
Definition number_of_scan (num : string) (dot_count : Z) : Token :=
  if dot_count =? 0
  then mkToken TT_INT (VInt (int_acc 0 num)) None None
  else mkToken TT_FLOAT (VFloat num) None None.

(** The branches of the [if] chain in [make_tokens]. *)
Inductive char_class : Type :=
| CBlank
| CDigit
| CSingle (t : TokenType)
| CIllegal.

Definition classify (c : ascii) : char_class :=
  if Ascii.eqb c " "%char || Ascii.eqb c "009"%char then CBlank
  else if char_in c DIGITS then CDigit
  else if Ascii.eqb c "+"%char then CSingle TT_PLUS
  else if Ascii.eqb c "-"%char then CSingle TT_MINUS
  else if Ascii.eqb c "*"%char then CSingle TT_MUL
  else if Ascii.eqb c "/"%char then CSingle TT_DIV
  else if Ascii.eqb c "("%char then CSingle TT_LPAREN
  else if Ascii.eqb c ")"%char then CSingle TT_RPAREN
  else CIllegal.

(** The error of the last branch, for the character [c] that follows
    [pre] in [txt]. *)
Definition illegal_at (fn txt pre : string) (c : ascii) : Error :=
  IllegalCharError (cursor fn txt (String.length pre))
    (Position_advance (cursor fn txt (String.length pre)) (Some c))
    ("'" ++ String c "'")%string.

(** The span of [e] is the one character [c] of [txt]. *)
Definition covers_one_char (txt : string) (e : Error) (c : ascii) : Prop :=
  0 <= idx (err_pos_start e)
  /\ String.get (Z.to_nat (idx (err_pos_start e))) txt = Some c
  /\ idx (err_pos_end e) = idx (err_pos_start e) + 1.

(** What the specification promises for a text with a character outside
    the legal set: no tokens, and an illegal-character error whose span is
    one such character. *)
Definition rejects_illegal_char (fn txt : string) : Prop :=
  exists e c,
    tokenize fn txt = Returned ([], Some e)
    /\ error_name e = "Illegal Character"
    /\ covers_one_char txt e c
    /\ legal c = false.

(** What the specification promises for ["1.2.3"]: the float 1.2, then
    another number token, and no error. *)
Definition second_dot_starts_number (fn : string) : Prop :=
  exists t1 t2 rest,
    tokenize fn "1.2.3" = Returned (t1 :: t2 :: rest, None)
    /\ type_ t1 = TT_FLOAT /\ value t1 = VFloat "1.2"
    /\ (type_ t2 = TT_INT \/ type_ t2 = TT_FLOAT).

(** The cursor of the parser stands on a token of the list: the one at
    [tok_idx], or the last one once [tok_idx] has reached the end. *)
Definition cursor_invariant (p : Parser) : Prop :=
  0 <= tok_idx p
  /\ current_tok p
     = nth_error (tokens p)
         (Z.to_nat (Z.min (tok_idx p)
                      (Z.of_nat (List.length (tokens p)) - 1))).

(** A one-character token of type [t] at index [i] of [txt]. *)
Definition single_token (t : TokenType) (fn txt : string) (i : nat) : Token :=
  mkToken t VNone (Some (cursor fn txt i)) (Some (cursor fn txt (S i))).

Definition int_token (n : Z) : Token := mkToken TT_INT (VInt n) None None.

(** ** Termination of the parser

    A token list as the lexer makes it ends with the end-of-input token.
    On such a list the cursor of the parser never leaves the list, and a
    grammar rule started with [remaining] tokens before the last one needs
    fuel in proportion to them only. *)

Definition ends_with_eof (toks : list Token) : Prop :=
  exists ts t, toks = ts ++ [t] /\ type_ t = TT_EOF.

Definition on_token (toks : list Token) (p : Parser) : Prop :=
  tokens p = toks
  /\ 0 <= tok_idx p <= Z.of_nat (List.length toks) - 1
  /\ current_tok p = nth_error toks (Z.to_nat (tok_idx p)).

Definition remaining (p : Parser) : nat :=
  Z.to_nat (Z.of_nat (List.length (tokens p)) - 1 - tok_idx p).

Definition terminates_within (toks : list Token) (r : rule) (n : nat)
  : Prop :=
  forall p,
    on_token toks p -> (remaining p <= n)%nat ->
    r p <> OutOfFuel
    /\ forall p' res,
        r p = Returned (p', res) ->
        on_token toks p' /\ (remaining p' <= remaining p)%nat.

(** A token that, if it is a number, carries no position. *)
Definition number_unpositioned (t : Token) : Prop :=
  type_in (type_ t) [TT_INT; TT_FLOAT] = true ->
  pos_start t = None /\ pos_end t = None.

(** ** The grammar of the rules

    The comments of the source give the grammar
    [factor -> INT | FLOAT | (PLUS | MINUS) factor | LPAREN expr RPAREN],
    [term -> factor ((MUL | DIV) factor)*] and
    [expr -> term ((PLUS | MINUS) term)*].  A [Cst] is a derivation of it
    with the repetitions nested to the left; [shape] says at which level a
    derivation stands, [flatten] gives its tokens and [ast] the tree the
    rules build for it. *)

Inductive Cst : Type :=
| CNum (t : Token)
| CSign (op : Token) (f : Cst)
| CParen (lp : Token) (e : Cst) (rp : Token)
| CBin (l : Cst) (op : Token) (r : Cst).

Inductive level : Type := LFactor | LTerm | LExpr.

Definition is_term_op (t : Token) : bool :=
  type_in (type_ t) [TT_MUL; TT_DIV].

Definition is_expr_op (t : Token) : bool :=
  type_in (type_ t) [TT_PLUS; TT_MINUS].

Fixpoint shape (lv : level) (c : Cst) : bool :=
  match c with
  | CNum t => type_in (type_ t) [TT_INT; TT_FLOAT]
  | CSign op f => is_expr_op op && shape LFactor f
  | CParen lp e rp =>
      TokenType_eqb (type_ lp) TT_LPAREN
      && TokenType_eqb (type_ rp) TT_RPAREN
      && shape LExpr e
  | CBin l op r =>
      match lv with
      | LFactor => false
      | LTerm => is_term_op op && shape LTerm l && shape LFactor r
      | LExpr =>
          (is_term_op op && shape LTerm l && shape LFactor r)
          || (is_expr_op op && shape LExpr l && shape LTerm r)
      end
  end.

Fixpoint flatten (c : Cst) : list Token :=
  match c with
  | CNum t => [t]
  | CSign op f => op :: flatten f
  | CParen lp e rp => lp :: flatten e ++ [rp]
  | CBin l op r => flatten l ++ op :: flatten r
  end.

Fixpoint ast (c : Cst) : Node :=
  match c with
  | CNum t => NumberNode t
  | CSign op f => UnaryOpNode op (Some (ast f))
  | CParen _ e _ => ast e
  | CBin l op r => BinOpNode (Some (ast l)) op (Some (ast r))
  end.

(** The turns the loop of [bin_op] takes on a derivation, for the
    operators [ops] of the rule. *)
Fixpoint turns (ops : list TokenType) (c : Cst) : nat :=
  match c with
  | CBin l op _ => if type_in (type_ op) ops then S (turns ops l) else O
  | _ => O
  end.

(** The parser of [toks] with its cursor on index [k]. *)
Definition parser_at (toks : list Token) (k : nat) : Parser :=
  mkParser toks (Z.of_nat k) (nth_error toks k).

(** The result of a rule that succeeded with [n]. *)
Definition parsed (n : Node) : ParserResult := mkParserResult None (Some n).

(** The character a one-character token stands for. *)
Definition token_char (t : TokenType) : option ascii :=
  match t with
  | TT_PLUS => Some "+"%char
  | TT_MINUS => Some "-"%char
  | TT_MUL => Some "*"%char
  | TT_DIV => Some "/"%char
  | TT_LPAREN => Some "("%char
  | TT_RPAREN => Some ")"%char
  | _ => None
  end.

(** A token as the lexer places it in [txt]: a number without positions,
    or a one-character token spanning its character. *)
Definition placed (fn txt : string) (t : Token) : Prop :=
  type_ t <> TT_EOF
  /\ ((type_in (type_ t) [TT_INT; TT_FLOAT] = true
       /\ pos_start t = None /\ pos_end t = None)
      \/ (exists i c,
            t = single_token (type_ t) fn txt i
            /\ String.get i txt = Some c
            /\ token_char (type_ t) = Some c)).

(** The three details of the errors of the parser. *)
Definition syntax_details : list string :=
  ["Expected int or float "; "Expected ')' ";
   "Expected '+' '-' '*' or '/' "].

(** An invalid-syntax error placed on a token of [toks]. *)
Definition error_on_token (toks : list Token) (e : Error) : Prop :=
  exists t ps pe d,
    In t toks /\ pos_start t = Some ps /\ pos_end t = Some pe
    /\ In d syntax_details
    /\ e = InvalidSyntaxError ps pe d.

(** The rule [r] parses every derivation of level [lv] of at most [w]
    tokens that stands in [toks] before a token whose type is not in
    [stop]: it returns the tree of the derivation and leaves the cursor on
    that token. *)
Definition parses_level (toks : list Token) (r : rule) (lv : level)
  (stop : list TokenType) (w : nat) : Prop :=
  forall c k t0 rest,
    shape lv c = true ->
    (List.length (flatten c) <= w)%nat ->
    skipn k toks = flatten c ++ t0 :: rest ->
    type_in (type_ t0) stop = false ->
    r (parser_at toks k)
    = Returned (parser_at toks (k + List.length (flatten c)),
                parsed (ast c)).

(** Whatever the rule [r] returns without an error, from a cursor on a
    token of [toks], is the tree of a derivation of level [lv] that stands
    in [toks] from that token on, and the cursor is left on the token
    behind it. *)
Definition derives (toks : list Token) (r : rule) (lv : level) : Prop :=
  forall k p' res,
    (k < List.length toks)%nat ->
    r (parser_at toks k) = Returned (p', res) ->
    error res = None ->
    exists c t0 rest,
      shape lv c = true
      /\ node res = Some (ast c)
      /\ p' = parser_at toks (k + List.length (flatten c))
      /\ skipn k toks = flatten c ++ t0 :: rest.

(** The cursor of [p] is on a token of [toks], if on any. *)
Definition cursor_in (toks : list Token) (p : Parser) : Prop :=
  tokens p = toks /\ forall t, current_tok p = Some t -> In t toks.

(** The errors of the rule [r] are invalid-syntax errors on tokens of
    [toks]. *)
Definition reports_on_tokens (toks : list Token) (r : rule) : Prop :=
  forall p p' res,
    cursor_in toks p ->
    r p = Returned (p', res) ->
    cursor_in toks p'
    /\ forall e, error res = Some e -> error_on_token toks e.

(** ** Which character the scan rejects

    The scan read off the text alone.  Outside a number ([AtStart]) a digit
    starts one; in a number without a dot ([InInt]) a dot continues it; in
    a number with its dot ([InFloat]) only digits do.  A dot anywhere else
    does not continue a number and is rejected, as is every character
    outside the legal set; the other legal characters end a number.
    [first_rejected st s] is the index in [s] of the first character
    rejected when the scan stands in [st] before [s]. *)

Inductive scan_state : Type := AtStart | InInt | InFloat.

Definition step (st : scan_state) (c : ascii) : option scan_state :=
  if char_in c DIGITS then
    Some (match st with InFloat => InFloat | _ => InInt end)
  else if Ascii.eqb c "."%char then
    match st with InInt => Some InFloat | _ => None end
  else if legal c then Some AtStart
  else None.

Fixpoint first_rejected (st : scan_state) (s : string) : option nat :=
  match s with
  | EmptyString => None
  | String c s' =>
      match step st c with
      | None => Some O
      | Some st' => option_map S (first_rejected st' s')
      end
  end.

(** [n] times the character [c]. *)
Fixpoint replicate (n : nat) (c : ascii) : string :=
  match n with
  | O => EmptyString
  | S n' => String c (replicate n' c)
  end.

(** What the specification promises for a decimal literal: its number
    token, the end-of-input token, and no error. *)
Definition lexes_as_number (fn s : string) : Prop :=
  tokenize fn s = Returned ([number_token s; eof_token fn s], None).

(** * Facts *)

(** ** Strings *)

Lemma str_app_assoc (a b c : string) :
  ((a ++ b) ++ c = a ++ (b ++ c))%string.
Proof. induction a as [|x a IH]; simpl; [reflexivity | now rewrite IH]. Qed.

Lemma str_app_nil_r (a : string) : (a ++ "")%string = a.
Proof. induction a as [|x a IH]; simpl; [reflexivity | now rewrite IH]. Qed.

Lemma str_app_length (a b : string) :
  String.length (a ++ b) = (String.length a + String.length b)%nat.
Proof. induction a as [|x a IH]; simpl; [reflexivity | now rewrite IH]. Qed.

Lemma str_snoc_app (a : string) (c : ascii) (b : string) :
  ((a ++ String c "") ++ b = a ++ String c b)%string.
Proof. now rewrite str_app_assoc. Qed.

Lemma get_at_split (pre suf : string) :
  String.get (String.length pre) (pre ++ suf) = hd_char suf.
Proof.
  induction pre as [|x pre IH]; simpl.
  - destruct suf; reflexivity.
  - exact IH.
Qed.

(** ** The cursor *)

Lemma Lexer_init_on (fn txt : string) : Lexer_init fn txt = lexer_on fn "" txt.
Proof.
  unfold Lexer_init, Lexer_advance, lexer_on, cursor; simpl.
  destruct txt as [|c t]; reflexivity.
Qed.

Lemma Lexer_advance_on (fn pre : string) (c : ascii) (suf : string) :
  Ascii.eqb c newline = false ->
  Lexer_advance (lexer_on fn pre (String c suf))
  = lexer_on fn (pre ++ String c "") suf.
Proof.
  intros Hnl.
  unfold Lexer_advance, lexer_on, cursor, Position_advance; simpl.
  rewrite Hnl; simpl.
  rewrite str_snoc_app.
  assert (Hlen : Z.of_nat (String.length pre) + 1
                 = Z.of_nat (String.length (pre ++ String c ""))).
  { rewrite str_app_length; simpl; lia. }
  rewrite Hlen, Nat2Z.id.
  f_equal.
  rewrite <- (str_snoc_app pre c suf).
  rewrite get_at_split.
  destruct suf as [|d suf']; simpl.
  - destruct (_ <? _); reflexivity.
  - replace (_ <? _) with true; [reflexivity|].
    symmetry; apply Z.ltb_lt.
    rewrite !str_app_length; simpl; lia.
Qed.

(** ** Characters *)

Ltac by_cases_on_char c :=
  destruct c as [[] [] [] [] [] [] [] []]; vm_compute;
  try discriminate; try (intuition congruence).

Lemma digit_facts (c : ascii) :
  char_in c DIGITS = true ->
  legal c = true /\ Ascii.eqb c newline = false
  /\ Ascii.eqb c "."%char = false
  /\ char_in c (DIGITS ++ ".")%string = true.
Proof. by_cases_on_char c. Qed.

Lemma number_char_facts (c : ascii) :
  char_in c (DIGITS ++ ".")%string = true ->
  legal c = true /\ Ascii.eqb c newline = false
  /\ (Ascii.eqb c "."%char = false -> char_in c DIGITS = true).
Proof. by_cases_on_char c. Qed.

Lemma dot_is (c : ascii) : Ascii.eqb c "."%char = true -> c = "."%char.
Proof. apply Ascii.eqb_eq. Qed.

Lemma classify_blank (c : ascii) :
  classify c = CBlank ->
  blank c = true /\ legal c = true /\ Ascii.eqb c newline = false.
Proof. by_cases_on_char c. Qed.

Lemma classify_digit (c : ascii) :
  classify c = CDigit -> char_in c DIGITS = true.
Proof. by_cases_on_char c. Qed.

Lemma classify_single (c : ascii) (t : TokenType) :
  classify c = CSingle t ->
  legal c = true /\ Ascii.eqb c newline = false
  /\ type_in t [TT_INT; TT_FLOAT] = false.
Proof.
  destruct c as [[] [] [] [] [] [] [] []]; vm_compute; try discriminate;
    intros H; injection H as <-; repeat split.
Qed.

Lemma classify_illegal (c : ascii) :
  classify c = CIllegal -> legal c = false \/ c = "."%char.
Proof. by_cases_on_char c. Qed.

Lemma blank_classify (c : ascii) : blank c = true -> classify c = CBlank.
Proof. by_cases_on_char c. Qed.

Lemma digit_classify (c : ascii) :
  char_in c DIGITS = true -> classify c = CDigit.
Proof. by_cases_on_char c. Qed.

(** ** The loop of make_number *)

Lemma scan_number_split (suf : string) :
  forall dc, let '(num, rest, _) := scan_number suf dc in
             suf = (num ++ rest)%string.
Proof.
  induction suf as [|c s IH]; intros dc; cbn [scan_number]; [reflexivity|].
  destruct (char_in c (DIGITS ++ ".")%string); [|reflexivity].
  destruct (Ascii.eqb c "."%char).
  - destruct (dc =? 1); [reflexivity|].
    specialize (IH (dc + 1)).
    destruct (scan_number s (dc + 1)) as [[n r] d]; simpl; now rewrite <- IH.
  - specialize (IH dc).
    destruct (scan_number s dc) as [[n r] d]; simpl; now rewrite <- IH.
Qed.

Lemma make_number_loop_on (fn : string) (suf : string) :
  forall (pre num_str : string) (dc : Z) (fuel : nat),
    (String.length suf < fuel)%nat ->
    make_number_loop fuel (lexer_on fn pre suf) num_str dc
    = let '(num, rest, dc') := scan_number suf dc in
      Returned (lexer_on fn (pre ++ num) rest, (num_str ++ num)%string, dc').
Proof.
  induction suf as [|c s IH]; intros pre num_str dc fuel Hfuel;
    (destruct fuel as [|fuel]; [simpl in Hfuel; lia|]).
  - simpl. now rewrite !str_app_nil_r.
  - simpl in Hfuel. cbn [make_number_loop scan_number lexer_on current_char hd_char].
    destruct (char_in c (DIGITS ++ ".")%string) eqn:Hc;
      [|now rewrite !str_app_nil_r].
    destruct (number_char_facts c Hc) as (_ & Hnl & _).
    fold (lexer_on fn pre (String c s)).
    destruct (Ascii.eqb c "."%char) eqn:Hdot.
    + destruct (dc =? 1); [now rewrite !str_app_nil_r|].
      apply dot_is in Hdot; subst c.
      rewrite (Lexer_advance_on fn pre _ s Hnl).
      rewrite IH by lia.
      destruct (scan_number s (dc + 1)) as [[n r] d].
      now rewrite !str_snoc_app.
    + rewrite (Lexer_advance_on fn pre _ s Hnl).
      rewrite IH by lia.
      destruct (scan_number s dc) as [[n r] d].
      now rewrite !str_snoc_app.
Qed.

Lemma scan_number_legal (suf : string) :
  forall dc, let '(num, _, _) := scan_number suf dc in
             has_illegal num = false.
Proof.
  induction suf as [|c s IH]; intros dc; cbn [scan_number]; [reflexivity|].
  destruct (char_in c (DIGITS ++ ".")%string) eqn:Hc; [|reflexivity].
  destruct (number_char_facts c Hc) as (Hl & _ & _).
  destruct (Ascii.eqb c "."%char).
  - destruct (dc =? 1); [reflexivity|].
    specialize (IH (dc + 1)).
    destruct (scan_number s (dc + 1)) as [[n r] d]; simpl; now rewrite Hl.
  - specialize (IH dc).
    destruct (scan_number s dc) as [[n r] d]; simpl; now rewrite Hl.
Qed.

(** The count of dots only grows, and a number scanned without any dot is
    made of digits. *)
Lemma scan_number_count (suf : string) :
  forall dc, 0 <= dc ->
    let '(num, _, dc') := scan_number suf dc in
    dc <= dc' /\ (dc' = 0 -> all_digits num = true).
Proof.
  induction suf as [|c s IH]; intros dc Hdc; cbn [scan_number]; [split; [lia|reflexivity]|].
  destruct (char_in c (DIGITS ++ ".")%string) eqn:Hc; [|split; [lia|reflexivity]].
  destruct (number_char_facts c Hc) as (_ & _ & Hd).
  destruct (Ascii.eqb c "."%char).
  - destruct (dc =? 1); [split; [lia|reflexivity]|].
    specialize (IH (dc + 1) ltac:(lia)).
    destruct (scan_number s (dc + 1)) as [[n r] d]; simpl.
    destruct IH as [IH1 IH2]; split; [lia|intros ->; lia].
  - specialize (IH dc Hdc).
    destruct (scan_number s dc) as [[n r] d]; cbn [all_digits].
    destruct IH as [IH1 IH2]; split; [lia|].
    intros Hz. rewrite (Hd eq_refl), (IH2 Hz). reflexivity.
Qed.

(** On a digit the scan takes that digit. *)
Lemma scan_number_digit (c : ascii) (s : string) (dc : Z) :
  char_in c DIGITS = true ->
  exists num rest dc',
    scan_number (String c s) dc = (String c num, rest, dc').
Proof.
  intros Hc. destruct (digit_facts c Hc) as (_ & _ & Hdot & Hnum).
  cbn [scan_number]. rewrite Hnum, Hdot.
  destruct (scan_number s dc) as [[n r] d]. now exists n, r, d.
Qed.

(** [make_number] is entered on a digit only; then [float] cannot fail, and
    [int] fails on nothing but a literal of too many digits. *)
Lemma make_number_on (fn pre : string) (c : ascii) (s : string) (fuel : nat) :
  char_in c DIGITS = true ->
  (String.length (String c s) < fuel)%nat ->
  make_number fuel (lexer_on fn pre (String c s))
  = let '(num, rest, dc') := scan_number (String c s) 0 in
    if (dc' =? 0) && too_long num
    then Raised ValueError
    else Returned (lexer_on fn (pre ++ num) rest, number_of_scan num dc').
Proof.
  intros Hc Hfuel. unfold make_number.
  rewrite make_number_loop_on by exact Hfuel.
  destruct (scan_number_digit c s 0 Hc) as (n & r & d & Hscan).
  pose proof (scan_number_count (String c s) 0 ltac:(lia)) as Hcount.
  rewrite Hscan in *. destruct Hcount as [_ Hdigits].
  cbn [bind append]. unfold number_of_scan, py_int, py_float.
  assert (Hhas : has_digit (String c n) = true)
    by (cbn [has_digit]; now rewrite Hc).
  rewrite Hhas.
  destruct (d =? 0) eqn:Hd; cbn [andb].
  - apply Z.eqb_eq in Hd. rewrite (Hdigits Hd). cbn [andb].
    destruct (too_long (String c n)); reflexivity.
  - reflexivity.
Qed.

(** ** The loop of make_tokens *)

Lemma make_tokens_loop_step (fuel : nat) (l : Lexer) (toks : list Token) :
  make_tokens_loop (S fuel) l toks
  = match current_char l with
    | None =>
        Returned (toks ++ [Token_init TT_EOF VNone (Some (pos l)) None], None)
    | Some c =>
        match classify c with
        | CBlank => make_tokens_loop fuel (Lexer_advance l) toks
        | CDigit =>
            '(l1, t) <- make_number (S fuel) l ;;
            make_tokens_loop fuel l1 (toks ++ [t])
        | CSingle t =>
            make_tokens_loop fuel (Lexer_advance l)
              (toks ++ [Token_init t VNone (Some (pos l)) None])
        | CIllegal =>
            Returned ([], Some (IllegalCharError (Position_copy (pos l))
                                  (pos (Lexer_advance l))
                                  ("'" ++ String c "'")%string))
        end
    end.
Proof.
  cbn [make_tokens_loop]. destruct (current_char l) as [c|]; [|reflexivity].
  unfold classify, emit.
  repeat match goal with
         | |- context [if ?b then _ else _] => destruct b; try reflexivity
         end.
Qed.

Lemma has_illegal_app (a b : string) :
  has_illegal (a ++ b) = has_illegal a || has_illegal b.
Proof.
  induction a as [|x a IH]; simpl; [reflexivity|].
  now rewrite IH, orb_assoc.
Qed.

Lemma step_blank (c : ascii) (st : scan_state) :
  classify c = CBlank -> step st c = Some AtStart.
Proof. destruct st; by_cases_on_char c. Qed.

Lemma step_single (c : ascii) (t : TokenType) (st : scan_state) :
  classify c = CSingle t -> step st c = Some AtStart.
Proof. destruct st; by_cases_on_char c. Qed.

Lemma step_illegal (c : ascii) :
  classify c = CIllegal -> step AtStart c = None.
Proof. by_cases_on_char c. Qed.

Lemma step_digit (c : ascii) (st : scan_state) :
  char_in c DIGITS = true ->
  step st c = Some (match st with InFloat => InFloat | _ => InInt end).
Proof. intros Hc. unfold step. now rewrite Hc. Qed.

Lemma step_other (c : ascii) (st : scan_state) :
  char_in c (DIGITS ++ ".")%string = false -> step st c = step AtStart c.
Proof. destruct st; by_cases_on_char c. Qed.

Lemma option_map_S_add (n : nat) (o : option nat) :
  option_map S (option_map (Nat.add n) o) = option_map (Nat.add (S n)) o.
Proof. destruct o; reflexivity. Qed.

Lemma option_map_add_0 (o : option nat) : option_map (Nat.add 0) o = o.
Proof. destruct o; reflexivity. Qed.

(** The loop of [make_number] and the automaton agree: the characters
    taken are not rejected, and what follows is judged as from the start
    of a token. *)
Lemma scan_number_rejects (suf : string) :
  forall dc st,
    (dc = 0 /\ st = InInt) \/ (dc = 1 /\ st = InFloat) ->
    let '(num, rest, _) := scan_number suf dc in
    first_rejected st suf
    = option_map (Nat.add (String.length num)) (first_rejected AtStart rest).
Proof.
  induction suf as [|c s IH]; intros dc st Hst; cbn [scan_number];
    [reflexivity|].
  destruct (char_in c (DIGITS ++ ".")%string) eqn:Hc.
  - destruct (number_char_facts c Hc) as (_ & _ & Hd).
    destruct (Ascii.eqb c "."%char) eqn:Hdot.
    + apply dot_is in Hdot. subst c.
      destruct Hst as [[-> ->] | [-> ->]].
      * change (0 =? 1) with false. cbv iota.
        specialize (IH 1 InFloat ltac:(now right)).
        change (0 + 1) with 1.
        destruct (scan_number s 1) as [[n r] d].
        cbn [first_rejected String.length]. change (step InInt ".") with
          (Some InFloat). cbv iota. rewrite IH. apply option_map_S_add.
      * change (1 =? 1) with true. cbv iota. reflexivity.
    + specialize (Hd eq_refl).
      assert (Hkeep : step st c = Some st)
        by (rewrite (step_digit c st Hd);
            destruct Hst as [[_ ->] | [_ ->]]; reflexivity).
      specialize (IH dc st Hst).
      destruct (scan_number s dc) as [[n r] d].
      cbn [first_rejected String.length]. rewrite Hkeep, IH.
      apply option_map_S_add.
  - cbn [String.length first_rejected]. rewrite option_map_add_0.
    cbn [first_rejected]. now rewrite (step_other c st Hc).
Qed.

Lemma scan_number_rejects_start (c : ascii) (s : string) :
  char_in c DIGITS = true ->
  let '(num, rest, _) := scan_number (String c s) 0 in
  first_rejected AtStart (String c s)
  = option_map (Nat.add (String.length num)) (first_rejected AtStart rest).
Proof.
  intros Hc. destruct (digit_facts c Hc) as (_ & _ & Hdot & Hnum).
  cbn [scan_number first_rejected]. rewrite Hnum, Hdot, (step_digit c _ Hc).
  pose proof (scan_number_rejects s 0 InInt ltac:(now left)) as H.
  destruct (scan_number s 0) as [[n r] d].
  cbn [String.length]. rewrite H. apply option_map_S_add.
Qed.

(** The scan of a text from any split of it, at the start of a token, ends
    in one of three ways.  Every character is accepted and the tokens end
    with the end-of-input token.  Or the scan stops on the first character
    the automaton rejects: one outside the legal set, or a dot that does
    not continue a number; nothing before that character is outside the
    legal set.  Or [int] raises [ValueError] on an integer literal of too
    many digits, met before any rejected character. *)
Lemma make_tokens_loop_on (fn : string) (fuel : nat) :
  forall (suf pre : string) (toks : list Token),
    (String.length suf < fuel)%nat ->
    (has_illegal suf = false /\
     first_rejected AtStart suf = None /\
     exists toks',
       Forall number_unpositioned toks' /\
       make_tokens_loop fuel (lexer_on fn pre suf) toks
       = Returned (toks ++ toks' ++ [eof_token fn (pre ++ suf)], None))
    \/
    (exists mid c suf',
       (suf = mid ++ String c suf')%string /\
       has_illegal mid = false /\
       first_rejected AtStart suf = Some (String.length mid) /\
       (legal c = false \/ c = "."%char) /\
       make_tokens_loop fuel (lexer_on fn pre suf) toks
       = Returned ([], Some (illegal_at fn (pre ++ suf) (pre ++ mid) c)))
    \/
    (exists mid ds suf',
       (suf = mid ++ ds ++ suf')%string /\
       has_illegal mid = false /\
       all_digits ds = true /\
       too_long ds = true /\
       first_rejected AtStart suf
       = option_map (Nat.add (String.length mid + String.length ds))
           (first_rejected AtStart suf') /\
       make_tokens_loop fuel (lexer_on fn pre suf) toks = Raised ValueError).
Proof.
  induction fuel as [|fuel IH]; intros suf pre toks Hfuel; [lia|].
  rewrite make_tokens_loop_step.
  destruct suf as [|c s]; cbn [lexer_on current_char hd_char pos].
  - left. split; [reflexivity|]. split; [reflexivity|].
    exists []. split; [constructor|].
    cbn [app]. unfold eof_token. now rewrite str_app_nil_r.
  - fold (lexer_on fn pre (String c s)). simpl in Hfuel.
    assert (Hskip : forall (tok : list Token),
              step AtStart c = Some AtStart ->
              legal c = true ->
              Ascii.eqb c newline = false ->
              Forall number_unpositioned tok ->
              forall toks1, toks1 = toks ++ tok ->
              (has_illegal (String c s) = false /\
               first_rejected AtStart (String c s) = None /\
               exists toks',
                 Forall number_unpositioned toks' /\
                 make_tokens_loop fuel
                   (Lexer_advance (lexer_on fn pre (String c s))) toks1
                 = Returned
                     (toks ++ toks' ++ [eof_token fn (pre ++ String c s)],
                      None))
              \/
              (exists mid d suf',
                 (String c s = mid ++ String d suf')%string /\
                 has_illegal mid = false /\
                 first_rejected AtStart (String c s)
                 = Some (String.length mid) /\
                 (legal d = false \/ d = "."%char) /\
                 make_tokens_loop fuel
                   (Lexer_advance (lexer_on fn pre (String c s))) toks1
                 = Returned ([], Some (illegal_at fn (pre ++ String c s)
                                         (pre ++ mid) d)))
              \/
              (exists mid ds suf',
                 (String c s = mid ++ ds ++ suf')%string /\
                 has_illegal mid = false /\
                 all_digits ds = true /\
                 too_long ds = true /\
                 first_rejected AtStart (String c s)
                 = option_map (Nat.add (String.length mid + String.length ds))
                     (first_rejected AtStart suf') /\
                 make_tokens_loop fuel
                   (Lexer_advance (lexer_on fn pre (String c s))) toks1
                 = Raised ValueError)).
    { intros tok Hstep Hl Hnl Htok toks1 ->.
      rewrite (Lexer_advance_on fn pre c s Hnl).
      cbn [first_rejected has_illegal]. rewrite Hstep, Hl. cbn [negb orb].
      destruct (IH s (pre ++ String c "")%string (toks ++ tok) ltac:(lia))
        as [(Hs & Hfr & toks' & Hall & Hrun)
           | [(mid & d & suf' & Heq & Hmid & Hfr & Hd & Hrun)
             | (mid & ds & suf' & Heq & Hmid & Hds & Hlong & Hfr & Hrun)]];
        rewrite ?str_snoc_app in *.
      - left. split; [exact Hs|]. split; [now rewrite Hfr|].
        exists (tok ++ toks'). split; [now apply Forall_app|].
        now rewrite Hrun, <- !app_assoc.
      - right. left. exists (String c mid), d, suf'.
        split; [now rewrite Heq|].
        split; [cbn [has_illegal]; now rewrite Hl, Hmid|].
        split; [now rewrite Hfr|]. now split.
      - right. right. exists (String c mid), ds, suf'.
        split; [now rewrite Heq|].
        split; [cbn [has_illegal]; now rewrite Hl, Hmid|].
        split; [exact Hds|]. split; [exact Hlong|].
        split; [|exact Hrun].
        rewrite Hfr. cbn [String.length Nat.add]. apply option_map_S_add. }
    destruct (classify c) eqn:Hcl.
    + destruct (classify_blank c Hcl) as (_ & Hl & Hnl).
      apply (Hskip [] (step_blank c _ Hcl) Hl Hnl (Forall_nil _)).
      now rewrite app_nil_r.
    + apply classify_digit in Hcl.
      rewrite (make_number_on fn pre c s (S fuel) Hcl) by (simpl; lia).
      pose proof (scan_number_split (String c s) 0) as Hsplit.
      pose proof (scan_number_legal (String c s) 0) as Hlegal.
      pose proof (scan_number_count (String c s) 0 ltac:(lia)) as Hcount.
      pose proof (scan_number_rejects_start c s Hcl) as Hrej.
      destruct (scan_number_digit c s 0 Hcl) as (n & r & d & Hscan).
      rewrite Hscan in *. destruct Hcount as [_ Hdigits].
      destruct ((d =? 0) && too_long (String c n)) eqn:Hover.
      { right. right. apply andb_prop in Hover as [Hd Hlong].
        apply Z.eqb_eq in Hd.
        exists EmptyString, (String c n), r.
        split; [exact Hsplit|]. split; [reflexivity|].
        split; [now apply Hdigits|]. split; [exact Hlong|].
        split; [exact Hrej | reflexivity]. }
      cbn [bind].
      assert (Hlen : (String.length r < fuel)%nat).
      { apply (f_equal String.length) in Hsplit.
        rewrite str_app_length in Hsplit. simpl in Hsplit. lia. }
      destruct (IH r (pre ++ String c n)%string
                  (toks ++ [number_of_scan (String c n) d]) Hlen)
        as [(Hs & Hfr & toks' & Hall & Hrun)
           | [(mid & e & suf' & Heq & Hmid & Hfr & He & Hrun)
             | (mid & ds & suf' & Heq & Hmid & Hds & Hlong & Hfr & Hrun)]];
        rewrite ?str_app_assoc, <- ?Hsplit in *.
      * left. split.
        { rewrite Hsplit, has_illegal_app, Hlegal, Hs. reflexivity. }
        split; [now rewrite Hrej, Hfr|].
        exists (number_of_scan (String c n) d :: toks'). split.
        { constructor; [|exact Hall].
          unfold number_of_scan. intros _.
          destruct (d =? 0); split; reflexivity. }
        rewrite Hrun, <- app_assoc. reflexivity.
      * right. left. exists (String c n ++ mid)%string, e, suf'.
        split; [now rewrite Hsplit, Heq, str_app_assoc|].
        split; [now rewrite has_illegal_app, Hlegal, Hmid|].
        split; [|now split].
        rewrite Hrej, Hfr, str_app_length. reflexivity.
      * right. right. exists (String c n ++ mid)%string, ds, suf'.
        split; [now rewrite Hsplit, Heq, !str_app_assoc|].
        split; [now rewrite has_illegal_app, Hlegal, Hmid|].
        split; [exact Hds|]. split; [exact Hlong|].
        split; [|exact Hrun].
        rewrite Hrej, Hfr, str_app_length.
        destruct (first_rejected AtStart suf'); cbn [option_map];
          [f_equal; lia | reflexivity].
    + destruct (classify_single c t Hcl) as (Hl & Hnl & Hnot).
      apply (Hskip [Token_init t VNone
                      (Some (cursor fn (pre ++ String c s)
                               (String.length pre))) None]
               (step_single c t _ Hcl) Hl Hnl).
      * constructor; [|constructor]. intros Hnum.
        change (type_in t [TT_INT; TT_FLOAT] = true) in Hnum. congruence.
      * reflexivity.
    + right. left. exists EmptyString, c, s. split; [reflexivity|].
      split; [reflexivity|].
      split; [cbn [first_rejected]; now rewrite (step_illegal c Hcl)|].
      split; [now apply classify_illegal|]. now rewrite str_app_nil_r.
Qed.

(** [tokenize] ends in one of three ways: the token list ended by the
    end-of-input token; the empty list and the error of the first rejected
    character; [ValueError] on an integer literal of too many digits that
    stands before any rejected character. *)
Lemma tokenize_cases (fn txt : string) :
  (has_illegal txt = false /\
   first_rejected AtStart txt = None /\
   exists toks,
     Forall number_unpositioned toks /\
     tokenize fn txt = Returned (toks ++ [eof_token fn txt], None))
  \/
  (exists pre c suf,
     (txt = pre ++ String c suf)%string /\
     has_illegal pre = false /\
     first_rejected AtStart txt = Some (String.length pre) /\
     (legal c = false \/ c = "."%char) /\
     tokenize fn txt = Returned ([], Some (illegal_at fn txt pre c)))
  \/
  (exists pre ds suf,
     (txt = pre ++ ds ++ suf)%string /\
     has_illegal pre = false /\
     all_digits ds = true /\
     too_long ds = true /\
     first_rejected AtStart txt
     = option_map (Nat.add (String.length pre + String.length ds))
         (first_rejected AtStart suf) /\
     tokenize fn txt = Raised ValueError).
Proof.
  unfold tokenize, make_tokens. rewrite Lexer_init_on.
  cbn [lexer_on text append].
  destruct (make_tokens_loop_on fn (S (String.length txt)) txt "" []
              ltac:(lia))
    as [(Hs & Hfr & toks & Hall & Hrun)
       | [(mid & c & suf & Heq & Hmid & Hfr & Hc & Hrun)
         | (mid & ds & suf & Heq & Hmid & Hds & Hlong & Hfr & Hrun)]].
  - left. split; [exact Hs|]. split; [exact Hfr|].
    exists toks. split; [exact Hall|exact Hrun].
  - right. left. exists mid, c, suf. repeat split; assumption.
  - right. right. exists mid, ds, suf. repeat split; assumption.
Qed.

(** ** Decimal literals *)

Lemma scan_number_digits (ds : string) :
  all_digits ds = true ->
  forall r dc,
    scan_number (ds ++ r) dc
    = let '(n, r', d) := scan_number r dc in ((ds ++ n)%string, r', d).
Proof.
  induction ds as [|c ds IH]; intros Hds r dc.
  - cbn [append]. now destruct (scan_number r dc) as [[n r'] d].
  - cbn [all_digits] in Hds. apply andb_prop in Hds as [Hc Hds].
    destruct (digit_facts c Hc) as (_ & _ & Hdot & Hnum).
    cbn [append scan_number]. rewrite Hnum, Hdot, (IH Hds).
    now destruct (scan_number r dc) as [[n r'] d].
Qed.

Lemma all_digits_no_dot (ds : string) :
  all_digits ds = true -> char_in "."%char ds = false.
Proof.
  induction ds as [|c ds IH]; [reflexivity|].
  cbn [all_digits char_in]. intros H. apply andb_prop in H as [Hc Hds].
  destruct (digit_facts c Hc) as (_ & _ & Hdot & _).
  rewrite Ascii.eqb_sym, Hdot, (IH Hds). reflexivity.
Qed.

Lemma char_in_app (c : ascii) (a b : string) :
  char_in c (a ++ b) = char_in c a || char_in c b.
Proof.
  induction a as [|x a IH]; simpl; [reflexivity|].
  now rewrite IH, orb_assoc.
Qed.

Lemma split_at_dot_spec (s : string) :
  match split_at_dot s with
  | (ds, None) => s = ds
  | (ds, Some fs) => s = (ds ++ String "." fs)%string
  end.
Proof.
  induction s as [|c s IH]; cbn [split_at_dot]; [reflexivity|].
  destruct (Ascii.eqb c "."%char) eqn:Hc.
  - apply dot_is in Hc. now subst c.
  - destruct (split_at_dot s) as [a [b|]]; cbn [append]; now rewrite <- IH.
Qed.

(** A literal is scanned whole, and its dot count says whether it has a
    dot. *)
Lemma scan_number_literal (s : string) :
  decimal_literal s = true ->
  scan_number s 0 = (s, EmptyString, if char_in "."%char s then 1 else 0).
Proof.
  unfold decimal_literal. pose proof (split_at_dot_spec s) as Hs.
  destruct (split_at_dot s) as [ds [fs|]]; unfold digits1; intros H.
  - apply andb_prop in H as [Hds Hfs].
    apply andb_prop in Hds as [Hds _]. apply andb_prop in Hfs as [Hfs _].
    subst s. rewrite (scan_number_digits ds Hds).
    cbn [scan_number]. change (char_in "." (DIGITS ++ ".")%string) with true.
    cbn [Ascii.eqb Bool.eqb]. change (0 =? 1) with false. cbv iota.
    rewrite <- (str_app_nil_r fs) at 1.
    rewrite (scan_number_digits fs Hfs). cbn [scan_number].
    rewrite str_app_nil_r, char_in_app. cbn [char_in].
    rewrite Ascii.eqb_refl, orb_true_r. reflexivity.
  - apply andb_prop in H as [Hds _]. subst s.
    rewrite <- (str_app_nil_r ds) at 1.
    rewrite (scan_number_digits ds Hds). cbn [scan_number].
    rewrite str_app_nil_r, (all_digits_no_dot ds Hds). reflexivity.
Qed.

Lemma decimal_literal_head (s : string) :
  decimal_literal s = true ->
  exists c s', s = String c s' /\ char_in c DIGITS = true.
Proof.
  unfold decimal_literal. pose proof (split_at_dot_spec s) as Hs.
  assert (Hhead : forall ds r, digits1 ds = true ->
            exists c s', (ds ++ r)%string = String c s'
                         /\ char_in c DIGITS = true).
  { intros [|c ds] r; unfold digits1; cbn [all_digits has_digit];
      [discriminate|].
    intros H. apply andb_prop in H as [H _]. apply andb_prop in H as [H _].
    now exists c, (ds ++ r)%string. }
  destruct (split_at_dot s) as [ds [fs|]]; intros H; subst s.
  - apply andb_prop in H as [H _]. now apply Hhead.
  - rewrite <- (str_app_nil_r ds). now apply Hhead.
Qed.

Lemma Position_advance_cursor (fn txt : string) (n : nat) :
  Position_advance (cursor fn txt n) None = cursor fn txt (S n).
Proof.
  unfold Position_advance, cursor; cbn -[Z.of_nat Z.add].
  now rewrite Nat2Z.inj_succ, !Z.add_1_r.
Qed.

(** A text that [make_number] scans whole is one number token, unless it
    is an integer literal of too many digits. *)
Lemma tokenize_number (fn : string) (c : ascii) (s : string) (d : Z) :
  char_in c DIGITS = true ->
  scan_number (String c s) 0 = (String c s, EmptyString, d) ->
  (d =? 0) && too_long (String c s) = false ->
  tokenize fn (String c s)
  = Returned ([number_of_scan (String c s) d; eof_token fn (String c s)],
              None).
Proof.
  intros Hc Hscan Hshort. unfold tokenize, make_tokens. rewrite Lexer_init_on.
  change (text (lexer_on fn "" (String c s))) with (String c s).
  rewrite make_tokens_loop_step.
  cbn [lexer_on current_char hd_char]. rewrite (digit_classify c Hc).
  fold (lexer_on fn "" (String c s)).
  rewrite (make_number_on fn "" c s _ Hc) by lia.
  rewrite Hscan, Hshort. cbn [bind append String.length].
  rewrite make_tokens_loop_step.
  cbn [lexer_on current_char hd_char pos app].
  unfold eof_token. now rewrite str_app_nil_r.
Qed.

Lemma tokenize_too_long (fn : string) (c : ascii) (s r : string) :
  char_in c DIGITS = true ->
  scan_number (String c s) 0 = (String c s, r, 0) ->
  too_long (String c s) = true ->
  tokenize fn (String c s) = Raised ValueError.
Proof.
  intros Hc Hscan Hlong. unfold tokenize, make_tokens. rewrite Lexer_init_on.
  change (text (lexer_on fn "" (String c s))) with (String c s).
  rewrite make_tokens_loop_step.
  cbn [lexer_on current_char hd_char]. rewrite (digit_classify c Hc).
  fold (lexer_on fn "" (String c s)).
  rewrite (make_number_on fn "" c s _ Hc) by lia.
  rewrite Hscan, Hlong. reflexivity.
Qed.

Lemma short_not_too_long (s : string) :
  Z.of_nat (String.length s) <= int_max_str_digits -> too_long s = false.
Proof.
  intros H. unfold too_long.
  replace (int_max_str_digits <? Z.of_nat (String.length s)) with false
    by (symmetry; apply Z.ltb_ge; exact H).
  apply andb_false_r.
Qed.




(** ** Illegal characters *)

Lemma illegal_at_covers (fn pre : string) (c : ascii) (suf : string) :
  covers_one_char (pre ++ String c suf)
    (illegal_at fn (pre ++ String c suf) pre c) c.
Proof.
  unfold covers_one_char, illegal_at, IllegalCharError, Position_advance,
    cursor.
  cbn -[Z.of_nat Z.add String.get]. rewrite Nat2Z.id.
  split; [lia|]. split; [apply get_at_split|].
  destruct (Ascii.eqb c newline); reflexivity.
Qed.

Lemma step_some_legal (st st' : scan_state) (c : ascii) :
  step st c = Some st' -> legal c = true.
Proof. destruct st; by_cases_on_char c. Qed.

Lemma step_none (st : scan_state) (c : ascii) :
  step st c = None -> legal c = false \/ c = "."%char.
Proof. destruct st; by_cases_on_char c. Qed.

Lemma has_illegal_rejected (s : string) :
  has_illegal s = true -> forall st, first_rejected st s <> None.
Proof.
  induction s as [|c s IH]; cbn [has_illegal first_rejected];
    [discriminate|].
  intros H st. destruct (step st c) as [st'|] eqn:Hstep; [|discriminate].
  rewrite (step_some_legal _ _ _ Hstep) in H. cbn [negb orb] in H.
  specialize (IH H st'). destruct (first_rejected st' s);
    [discriminate | contradiction].
Qed.

Lemma first_rejected_char (s : string) :
  forall st i,
    first_rejected st s = Some i ->
    exists c, String.get i s = Some c /\ (legal c = false \/ c = "."%char).
Proof.
  induction s as [|c s IH]; cbn [first_rejected]; intros st i;
    [discriminate|].
  destruct (step st c) as [st'|] eqn:Hstep.
  - destruct (first_rejected st' s) as [j|] eqn:Hj; cbn [option_map];
      [|discriminate].
    intros H. injection H as <-. exact (IH st' j Hj).
  - intros H. injection H as <-. exists c.
    split; [reflexivity | exact (step_none _ _ Hstep)].
Qed.




(** ** A second dot *)

(** C5, as the code has it. On a second dot the loop of [make_number]
    ends without consuming the dot and without an error, so on ["1.2.3"]
    [make_number] returns the float 1.2 and leaves the cursor on the second
    dot; the token loop, which starts a number on a digit only, then
    rejects that dot: tokenizing ["1.2.3"] returns the empty token list and
    an illegal-character error on the second dot. *)
Theorem second_dot_ends_number :
  (forall fuel fn txt p num_str,
     make_number_loop (S fuel) (mkLexer fn txt p (Some "."%char)) num_str 1
     = Returned (mkLexer fn txt p (Some "."%char), num_str, 1))
  /\ make_number 6 (Lexer_init "<stdin>" "1.2.3")
     = Returned (lexer_on "<stdin>" "1.2" ".3",
                 mkToken TT_FLOAT (VFloat "1.2") None None)
  /\ tokenize "<stdin>" "1.2.3"
     = Returned ([], Some (illegal_at "<stdin>" "1.2.3" "1.2" "."%char)).
Proof.
  split; [reflexivity|]. split; reflexivity.
Qed.

(** C5, as stated, fails: tokenizing ["1.2.3"] yields no token at all. *)
Lemma second_dot_starts_number_fails :
  ~ second_dot_starts_number "<stdin>".
Proof.
  intros (t1 & t2 & rest & Hrun & _). vm_compute in Hrun. discriminate.
Qed.

(** ** Blank input *)

Lemma make_tokens_loop_blank (fn : string) (suf : string) :
  forall (pre : string) (toks : list Token) (fuel : nat),
    all_blank suf = true ->
    (String.length suf < fuel)%nat ->
    make_tokens_loop fuel (lexer_on fn pre suf) toks
    = Returned (toks ++ [eof_token fn (pre ++ suf)], None).
Proof.
  induction suf as [|c s IH]; intros pre toks fuel Hb Hfuel;
    (destruct fuel as [|fuel]; [simpl in Hfuel; lia|]);
    rewrite make_tokens_loop_step; cbn [lexer_on current_char hd_char pos].
  - unfold eof_token. now rewrite str_app_nil_r.
  - cbn [all_blank] in Hb. apply andb_prop in Hb as [Hc Hs].
    rewrite (blank_classify c Hc).
    destruct (classify_blank c (blank_classify c Hc)) as (_ & _ & Hnl).
    fold (lexer_on fn pre (String c s)).
    rewrite (Lexer_advance_on fn pre c s Hnl).
    simpl in Hfuel. rewrite (IH _ _ _ Hs) by lia.
    now rewrite str_snoc_app.
Qed.

Lemma tokenize_blank (fn s : string) :
  all_blank s = true ->
  tokenize fn s = Returned ([eof_token fn s], None).
Proof.
  intros Hb. unfold tokenize, make_tokens. rewrite Lexer_init_on.
  change (text (lexer_on fn "" s)) with s.
  now rewrite (make_tokens_loop_blank fn s "" [] _ Hb) by lia.
Qed.

Lemma eof_token_single (fn txt : string) :
  eof_token fn txt = single_token TT_EOF fn txt (String.length txt).
Proof.
  unfold eof_token, Token_init, single_token. cbn [option_map].
  change (Position_copy (cursor fn txt (String.length txt)))
    with (cursor fn txt (String.length txt)).
  now rewrite Position_advance_cursor.
Qed.

(** C10. For the empty string and for every text of spaces and tabs only,
    tokenizing returns the end-of-input token alone and no error, and
    [run] returns no node and an invalid-syntax error, placed on that
    token, that says an int or a float was expected. *)
Theorem blank_input (fn s : string) :
  all_blank s = true ->
  tokenize fn s = Returned ([eof_token fn s], None)
  /\ type_ (eof_token fn s) = TT_EOF
  /\ run fn s
     = Returned (None,
                 Some (InvalidSyntaxError
                         (cursor fn s (String.length s))
                         (cursor fn s (S (String.length s)))
                         "Expected int or float ")).
Proof.
  intros Hb. split; [now apply tokenize_blank|]. split; [reflexivity|].
  unfold run. change (make_tokens (Lexer_init fn s)) with (tokenize fn s).
  rewrite (tokenize_blank fn s Hb), eof_token_single. reflexivity.
Qed.

Lemma blank_input_witness :
  tokenize "<stdin>" "  " = Returned ([eof_token "<stdin>" "  "], None)
  /\ type_ (eof_token "<stdin>" "  ") = TT_EOF
  /\ run "<stdin>" "  "
     = Returned (None,
                 Some (InvalidSyntaxError
                         (cursor "<stdin>" "  " 2) (cursor "<stdin>" "  " 3)
                         "Expected int or float ")).
Proof.
  apply (blank_input "<stdin>" "  "). reflexivity.
Defined.

(** ** Number tokens carry no position *)

Lemma make_number_no_position (fuel : nat) (l l1 : Lexer) (t : Token) :
  make_number fuel l = Returned (l1, t) ->
  pos_start t = None /\ pos_end t = None.
Proof.
  unfold make_number.
  destruct (make_number_loop fuel l "" 0) as [[[l2 num_str] dc]| |];
    cbn [bind]; try discriminate.
  destruct (dc =? 0).
  - destruct (py_int num_str); cbn [bind]; try discriminate.
    intros H; injection H as _ <-. split; reflexivity.
  - destruct (py_float num_str); cbn [bind]; try discriminate.
    intros H; injection H as _ <-. split; reflexivity.
Qed.

(** C4 on the code. No number token that tokenizing returns carries a
    start or an end position, whatever the text: [make_number] hands no
    position to [Token].  (On ["12"] the token is INT 12 without positions,
    while the cursor has moved on to index 2, where the end-of-input token
    starts.) *)
Theorem number_token_has_no_position (fn txt : string) (toks : list Token)
  (t : Token) :
  tokenize fn txt = Returned (toks, None) ->
  In t toks ->
  type_in (type_ t) [TT_INT; TT_FLOAT] = true ->
  pos_start t = None /\ pos_end t = None.
Proof.
  intros Hrun Hin Hnum.
  destruct (tokenize_cases fn txt)
    as [(_ & _ & ts & Hall & H)
       | [(pre & c & suf & _ & _ & _ & _ & H)
         | (pre & ds & suf & _ & _ & _ & _ & _ & H)]];
    rewrite H in Hrun; [|discriminate|discriminate].
  injection Hrun as <-.
  apply in_app_or in Hin as [Hin | [<- | []]].
  - rewrite Forall_forall in Hall. exact (Hall t Hin Hnum).
  - discriminate Hnum.
Qed.

Lemma number_token_has_no_position_witness :
  tokenize "<stdin>" "12"
  = Returned ([int_token 12; single_token TT_EOF "<stdin>" "12" 2], None)
  /\ pos_start (int_token 12) = None /\ pos_end (int_token 12) = None.
Proof.
  split; [reflexivity|].
  apply (number_token_has_no_position "<stdin>" "12"
           [int_token 12; single_token TT_EOF "<stdin>" "12" 2]).
  - reflexivity.
  - simpl. left. reflexivity.
  - reflexivity.
Defined.

(** ** run after a lexing error *)

Lemma Parser_init_empty : Parser_init [] = Raised AttributeError.
Proof. reflexivity. Qed.

(** Whenever lexing fails, [run] starts the parser on the empty token list
    and the read of the unset [current_tok] raises. *)
Lemma run_after_lex_error (fn txt : string) (toks : list Token) (e : Error) :
  tokenize fn txt = Returned (toks, Some e) ->
  run fn txt = Raised AttributeError.
Proof.
  intros Hrun. unfold run.
  change (make_tokens (Lexer_init fn txt)) with (tokenize fn txt).
  destruct (tokenize_cases fn txt)
    as [(_ & _ & toks' & _ & H)
       | [(pre & c & suf & _ & _ & _ & _ & H)
         | (pre & ds & suf & _ & _ & _ & _ & _ & H)]];
    rewrite H in *; [discriminate| |discriminate].
  reflexivity.
Qed.

(** C1 on the code. Whenever the lexer returns an error, the token list
    is empty and [run], which does not look at the error, builds the parser
    on that empty list: [Parser.__init__] raises [AttributeError], and [run]
    with it, instead of returning the lexing error. *)
Theorem run_ignores_lex_error (fn txt : string) (toks : list Token)
  (e : Error) :
  tokenize fn txt = Returned (toks, Some e) ->
  toks = []
  /\ Parser_init toks = Raised AttributeError
  /\ run fn txt = Raised AttributeError
  /\ run fn txt <> Returned (None, Some e).
Proof.
  intros Hrun.
  assert (Htoks : toks = []).
  { destruct (tokenize_cases fn txt)
      as [(_ & _ & ts & _ & H)
         | [(pre & c & suf & _ & _ & _ & _ & H)
           | (pre & ds & suf & _ & _ & _ & _ & _ & H)]];
      rewrite H in Hrun; [discriminate| |discriminate].
    now injection Hrun as <- _. }
  subst toks. split; [reflexivity|]. split; [reflexivity|].
  unfold run. change (make_tokens (Lexer_init fn txt)) with (tokenize fn txt).
  rewrite Hrun. cbn [bind]. split; [reflexivity|discriminate].
Qed.

Lemma run_ignores_lex_error_witness :
  let e := illegal_at "<stdin>" "a" "" "a"%char in
  tokenize "<stdin>" "a" = Returned ([], Some e)
  /\ Parser_init [] = Raised AttributeError
  /\ run "<stdin>" "a" = Raised AttributeError
  /\ run "<stdin>" "a" <> Returned (None, Some e).
Proof.
  cbv zeta. split; [reflexivity|].
  apply (run_ignores_lex_error "<stdin>" "a" []
           (illegal_at "<stdin>" "a" "" "a"%char)).
  reflexivity.
Defined.

(** ** Parsing *)

(** C8. Parsing the tokens of ["2 + 3 * 4"] returns no error and the tree
    BinOp(Number 2, +, BinOp(Number 3, *, Number 4)): the product is the
    right child of the sum. *)
Theorem product_nests_under_sum :
  let fn := "<stdin>" in
  let txt := "2 + 3 * 4" in
  let plus := single_token TT_PLUS fn txt 2 in
  let mul := single_token TT_MUL fn txt 6 in
  let toks := [int_token 2; plus; int_token 3; mul; int_token 4;
               single_token TT_EOF fn txt 9] in
  let tree := BinOpNode (Some (NumberNode (int_token 2))) plus
                (Some (BinOpNode (Some (NumberNode (int_token 3))) mul
                         (Some (NumberNode (int_token 4))))) in
  tokenize fn txt = Returned (toks, None)
  /\ (p <- Parser_init toks ;; parse (parse_fuel toks) p)
     = Returned (mkParser toks 5 (Some (single_token TT_EOF fn txt 9)),
                 mkParserResult None (Some tree))
  /\ run fn txt = Returned (Some tree, None).
Proof. cbv zeta. split; [reflexivity|]. split; reflexivity. Qed.

(** After an expression parsed without error, a token other than
    end-of-input under the cursor is reported when it carries its
    positions, and makes [parse] raise when it does not. *)
Lemma parse_reports_trailing_token (fuel : nat) (p0 p : Parser)
  (res : ParserResult) (t : Token) (ps pe : Position) :
  expr fuel p0 = Returned (p, res) ->
  error res = None ->
  current_tok p = Some t ->
  type_ t <> TT_EOF ->
  pos_start t = Some ps ->
  pos_end t = Some pe ->
  parse fuel p0
  = Returned (p, failure res (InvalidSyntaxError ps pe
                                "Expected '+' '-' '*' or '/' ")).
Proof.
  intros Hexpr Herr Hcur Hty Hps Hpe.
  unfold parse, has_error, fail_at_current, get_current_tok,
    get_pos_start, get_pos_end.
  rewrite Hexpr. cbn [bind]. rewrite Herr, Hcur. cbn [bind negb].
  destruct (TokenType_eqb (type_ t) TT_EOF) eqn:Heq.
  - destruct (type_ t); try discriminate. congruence.
  - cbn [negb]. rewrite Hps, Hpe. reflexivity.
Qed.

Lemma parse_raises_on_trailing_number (fuel : nat) (p0 p : Parser)
  (res : ParserResult) (t : Token) :
  expr fuel p0 = Returned (p, res) ->
  error res = None ->
  current_tok p = Some t ->
  type_ t <> TT_EOF ->
  pos_start t = None ->
  parse fuel p0 = Raised AttributeError.
Proof.
  intros Hexpr Herr Hcur Hty Hps.
  unfold parse, has_error, fail_at_current, get_current_tok, get_pos_start.
  rewrite Hexpr. cbn [bind]. rewrite Herr, Hcur. cbn [bind negb].
  destruct (TokenType_eqb (type_ t) TT_EOF) eqn:Heq.
  - destruct (type_ t); try discriminate. congruence.
  - cbn [negb]. rewrite Hps. reflexivity.
Qed.

(** C2 on the code. On ["1 + 2 3"] the expression [1 + 2] is parsed without
    error and the cursor stops on the number token 3; building the error
    reads the start position of that token, which [make_number] never set:
    [parse] raises [AttributeError] instead of returning an invalid-syntax
    error. *)
Theorem trailing_number_raises :
  let fn := "<stdin>" in
  let txt := "1 + 2 3" in
  let plus := single_token TT_PLUS fn txt 2 in
  let toks := [int_token 1; plus; int_token 2; int_token 3;
               single_token TT_EOF fn txt 7] in
  let sum := BinOpNode (Some (NumberNode (int_token 1))) plus
               (Some (NumberNode (int_token 2))) in
  tokenize fn txt = Returned (toks, None)
  /\ (p <- Parser_init toks ;; expr (parse_fuel toks) p)
     = Returned (mkParser toks 3 (Some (int_token 3)),
                 mkParserResult None (Some sum))
  /\ (p <- Parser_init toks ;; parse (parse_fuel toks) p)
     = Raised AttributeError
  /\ run fn txt = Raised AttributeError.
Proof.
  cbv zeta. split; [reflexivity|]. split; [reflexivity|].
  split; reflexivity.
Qed.

(** Where the first token after the expression is not a number, the error
    is returned; its detail ends with a space. *)
Lemma trailing_paren_is_reported :
  let fn := "<stdin>" in
  let txt := "1 + 2 )" in
  run fn txt
  = Returned (Some (BinOpNode (Some (NumberNode (int_token 1)))
                      (single_token TT_PLUS fn txt 2)
                      (Some (NumberNode (int_token 2)))),
              Some (InvalidSyntaxError (cursor fn txt 6) (cursor fn txt 7)
                      "Expected '+' '-' '*' or '/' ")).
Proof. reflexivity. Qed.

(** [register] keeps no record of an earlier error: the error of the
    registered result replaces it.  The rule [factor] guards against that
    by returning at once; [bin_op] has no such guard. *)
Lemma register_overwrites (e1 e2 : Error) (n1 n2 : option Node) :
  register (mkParserResult (Some e1) n1) (mkParserResult (Some e2) n2)
  = (mkParserResult (Some e2) n1, n2).
Proof. reflexivity. Qed.

Lemma register_success_keeps_error (r : ParserResult) (n : option Node) :
  register r (mkParserResult None n) = (r, n).
Proof. reflexivity. Qed.

(** C3 on the code. On ["*"] the rule [factor] fails on the star, at index
    0.  The loop of [bin_op] in [term] goes on all the same: it consumes the
    star as an operator, calls [factor] again, which fails on the
    end-of-input token at index 1, and [register] overwrites the first
    error with the second.  [run] returns a node built around the two
    failed operands together with the second error. *)
Theorem first_error_is_overwritten :
  let fn := "<stdin>" in
  let txt := "*" in
  let star := single_token TT_MUL fn txt 0 in
  let toks := [star; single_token TT_EOF fn txt 1] in
  let first := InvalidSyntaxError (cursor fn txt 0) (cursor fn txt 1)
                 "Expected int or float " in
  let second := InvalidSyntaxError (cursor fn txt 1) (cursor fn txt 2)
                  "Expected int or float " in
  tokenize fn txt = Returned (toks, None)
  /\ (p <- Parser_init toks ;; factor (parse_fuel toks) p)
     = Returned (mkParser toks 0 (Some star),
                 mkParserResult (Some first) None)
  /\ (p <- Parser_init toks ;; parse (parse_fuel toks) p)
     = Returned (mkParser toks 1 (Some (single_token TT_EOF fn txt 1)),
                 mkParserResult (Some second)
                   (Some (BinOpNode None star None)))
  /\ run fn txt = Returned (Some (BinOpNode None star None), Some second)
  /\ first <> second.
Proof.
  cbv zeta. split; [reflexivity|]. split; [reflexivity|].
  split; [reflexivity|]. split; [reflexivity|]. discriminate.
Qed.

(** ** The cursor of the parser *)

Lemma Parser_init_invariant (toks : list Token) :
  toks <> [] ->
  exists p0,
    Parser_init toks = Returned p0
    /\ tokens p0 = toks /\ tok_idx p0 = 0 /\ cursor_invariant p0.
Proof.
  destruct toks as [|t ts]; [congruence|]. intros _.
  exists (mkParser (t :: ts) 0 (Some t)).
  split; [reflexivity|]. split; [reflexivity|]. split; [reflexivity|].
  unfold cursor_invariant. cbn [tok_idx tokens current_tok].
  split; [lia|].
  replace (Z.min 0 _) with 0 by (cbn [List.length]; lia).
  reflexivity.
Qed.

(** C9. For every non-empty token list, the parser starts with
    [current_tok] = [tokens[min(tok_idx, len(tokens) - 1)]] and [advance]
    keeps it so: it adds one to [tok_idx], leaves [current_tok] as it is
    once [tok_idx] has reached the last index, and returns a token of the
    list without raising. *)
Theorem advance_keeps_cursor (toks : list Token) :
  toks <> [] ->
  (exists p0,
     Parser_init toks = Returned p0
     /\ tokens p0 = toks /\ cursor_invariant p0)
  /\ (forall p,
        tokens p = toks ->
        cursor_invariant p ->
        cursor_invariant (advance_state p)
        /\ tokens (advance_state p) = toks
        /\ tok_idx (advance_state p) = tok_idx p + 1
        /\ (Z.of_nat (List.length toks) - 1 <= tok_idx p ->
            current_tok (advance_state p) = current_tok p
            /\ current_tok p
               = nth_error toks (List.length toks - 1)%nat)
        /\ exists t,
            Parser_advance p = Returned (advance_state p, t)
            /\ In t toks).
Proof.
  intros Hne. split.
  { destruct (Parser_init_invariant toks Hne) as (p0 & H1 & H2 & _ & H3).
    now exists p0. }
  intros p Htoks [Hidx Hcur]. rewrite Htoks in Hcur.
  assert (Hlen : (0 < List.length toks)%nat)
    by (destruct toks; [congruence | simpl; lia]).
  assert (Hadv : cursor_invariant (advance_state p)
                 /\ tokens (advance_state p) = toks
                 /\ tok_idx (advance_state p) = tok_idx p + 1).
  { unfold cursor_invariant, advance_state. rewrite Htoks.
    destruct (tok_idx p + 1 <? Z.of_nat (List.length toks)) eqn:Hlt;
      cbn [tokens tok_idx current_tok].
    - apply Z.ltb_lt in Hlt.
      split; [split; [lia|] | split; reflexivity].
      now rewrite Z.min_l by lia.
    - apply Z.ltb_ge in Hlt.
      split; [split; [lia|] | split; reflexivity].
      rewrite Hcur, !Z.min_r by lia. reflexivity. }
  destruct Hadv as (Hinv & Ht & Hi).
  split; [exact Hinv|]. split; [exact Ht|]. split; [exact Hi|]. split.
  - intros Hend. split.
    + unfold advance_state. rewrite Htoks.
      replace (tok_idx p + 1 <? Z.of_nat (List.length toks)) with false
        by (symmetry; apply Z.ltb_ge; lia).
      reflexivity.
    + rewrite Hcur, Z.min_r by lia. f_equal. lia.
  - destruct Hinv as [_ Hcur']. rewrite Ht in Hcur'.
    unfold Parser_advance, get_current_tok.
    destruct (current_tok (advance_state p)) as [t|].
    + exists t. split; [reflexivity|].
      eapply nth_error_In. symmetry. exact Hcur'.
    + symmetry in Hcur'. apply nth_error_None in Hcur'. lia.
Qed.

Lemma advance_keeps_cursor_witness :
  let toks := [int_token 7; single_token TT_EOF "<stdin>" "7" 1] in
  (exists p0,
     Parser_init toks = Returned p0
     /\ tokens p0 = toks /\ cursor_invariant p0)
  /\ (forall p,
        tokens p = toks ->
        cursor_invariant p ->
        cursor_invariant (advance_state p)
        /\ tokens (advance_state p) = toks
        /\ tok_idx (advance_state p) = tok_idx p + 1
        /\ (Z.of_nat (List.length toks) - 1 <= tok_idx p ->
            current_tok (advance_state p) = current_tok p
            /\ current_tok p
               = nth_error toks (List.length toks - 1)%nat)
        /\ exists t,
            Parser_advance p = Returned (advance_state p, t)
            /\ In t toks).
Proof.
  apply (advance_keeps_cursor
           [int_token 7; single_token TT_EOF "<stdin>" "7" 1]).
  discriminate.
Defined.

(** ** The parser terminates on what the lexer returns *)

Section ParserTermination.

Variable toks : list Token.
Hypothesis toks_end : ends_with_eof toks.

Lemma on_token_current (p : Parser) :
  on_token toks p ->
  exists t,
    current_tok p = Some t
    /\ (type_ t <> TT_EOF -> (1 <= remaining p)%nat).
Proof.
  intros (Ht & Hidx & Hcur).
  destruct toks_end as (ts & t0 & Hts & Heof).
  assert (Hlen : List.length toks = S (List.length ts))
    by (rewrite Hts, length_app; simpl; lia).
  destruct (nth_error toks (Z.to_nat (tok_idx p))) as [t|] eqn:Hnth.
  - exists t. split; [exact Hcur|]. intros Hne.
    unfold remaining. rewrite Ht.
    destruct (Z.eq_dec (tok_idx p) (Z.of_nat (List.length ts))) as [He|He];
      [|lia].
    exfalso. apply Hne.
    rewrite He, Nat2Z.id, Hts, nth_error_app2 in Hnth by lia.
    rewrite Nat.sub_diag in Hnth. simpl in Hnth. congruence.
  - apply nth_error_None in Hnth. lia.
Qed.

Lemma on_token_advance (p : Parser) :
  on_token toks p ->
  (1 <= remaining p)%nat ->
  exists t,
    Parser_advance p = Returned (advance_state p, t)
    /\ on_token toks (advance_state p)
    /\ S (remaining (advance_state p)) = remaining p.
Proof.
  intros (Ht & Hidx & Hcur) Hrem. unfold remaining in *. rewrite Ht in Hrem.
  assert (Hlt : (tok_idx p + 1 <? Z.of_nat (List.length toks)) = true)
    by (apply Z.ltb_lt; lia).
  assert (Hst : advance_state p
                = mkParser toks (tok_idx p + 1)
                    (nth_error toks (Z.to_nat (tok_idx p + 1)))).
  { unfold advance_state. now rewrite Ht, Hlt. }
  destruct (nth_error toks (Z.to_nat (tok_idx p + 1))) as [t|] eqn:Hnth.
  - exists t. unfold Parser_advance, get_current_tok. rewrite Hst.
    cbn [current_tok bind tokens tok_idx]. rewrite Ht.
    split; [reflexivity|]. split; [|lia].
    split; [reflexivity|]. cbn [tokens tok_idx current_tok].
    split; [lia|]. now rewrite Hnth.
  - apply nth_error_None in Hnth. lia.
Qed.

Lemma fail_at_current_ends (p : Parser) (res : ParserResult) (d : string) :
  fail_at_current p res d <> OutOfFuel
  /\ forall p' r, fail_at_current p res d = Returned (p', r) -> p' = p.
Proof.
  unfold fail_at_current, get_current_tok, get_pos_start, get_pos_end.
  destruct (current_tok p) as [t|]; cbn [bind]; [|split; congruence].
  destruct (pos_start t); cbn [bind]; [|split; congruence].
  destruct (pos_end t); cbn [bind]; split; congruence.
Qed.

Lemma type_in_not_eof (t : Token) (ops : list TokenType) :
  type_in TT_EOF ops = false ->
  type_in (type_ t) ops = true ->
  type_ t <> TT_EOF.
Proof. intros Hops Hin Heq. rewrite Heq in Hin. congruence. Qed.

Lemma bin_op_loop_terminates (func : rule) (ops : list TokenType) (n : nat) :
  type_in TT_EOF ops = false ->
  terminates_within toks func n ->
  forall fuel p res left_,
    on_token toks p ->
    (remaining p <= n)%nat ->
    (remaining p < fuel)%nat ->
    bin_op_loop fuel func ops p res left_ <> OutOfFuel
    /\ forall p' r,
        bin_op_loop fuel func ops p res left_ = Returned (p', r) ->
        on_token toks p' /\ (remaining p' <= remaining p)%nat.
Proof.
  intros Hops Hfunc.
  induction fuel as [|fuel IH]; intros p res left_ Hp Hn Hfuel; [lia|].
  cbn [bin_op_loop]. unfold get_current_tok.
  destruct (on_token_current p Hp) as (t & -> & Hrem). cbn [bind].
  destruct (type_in (type_ t) ops) eqn:Hin.
  - specialize (Hrem (type_in_not_eof t ops Hops Hin)).
    destruct (on_token_advance p Hp Hrem) as (t1 & -> & Hp1 & Hr1).
    cbn [bind].
    destruct (Hfunc (advance_state p) Hp1 ltac:(lia)) as [Hno Hret].
    destruct (func (advance_state p)) as [[p2 r]| |]; cbn [bind];
      [|split; congruence|congruence].
    destruct (Hret p2 r eq_refl) as [Hp2 Hr2].
    destruct (register res r) as [res1 right_].
    destruct (IH p2 res1 (Some (BinOpNode left_ t right_)) Hp2
                ltac:(lia) ltac:(lia)) as [Hno' Hret'].
    split; [exact Hno'|]. intros p' r' Heq.
    destruct (Hret' p' r' Heq). split; [assumption|lia].
  - split; [congruence|]. intros p' r' Heq. injection Heq as <- _.
    split; [assumption|lia].
Qed.

Lemma bin_op_terminates (func : rule) (ops : list TokenType) (n fuel : nat) :
  type_in TT_EOF ops = false ->
  terminates_within toks func n ->
  (n < fuel)%nat ->
  terminates_within toks (bin_op fuel func ops) n.
Proof.
  intros Hops Hfunc Hfuel p Hp Hn. unfold bin_op.
  destruct (Hfunc p Hp Hn) as [Hno Hret].
  destruct (func p) as [[p1 r]| |]; cbn [bind];
    [|split; congruence|congruence].
  destruct (Hret p1 r eq_refl) as [Hp1 Hr1].
  destruct (register ParserResult_init r) as [res1 left_].
  destruct (bin_op_loop_terminates func ops n Hops Hfunc fuel p1 res1 left_
              Hp1 ltac:(lia) ltac:(lia)) as [Hno' Hret'].
  split; [exact Hno'|]. intros p' r' Heq.
  destruct (Hret' p' r' Heq). split; [assumption|lia].
Qed.

Lemma terminates_within_le (r : rule) (n m : nat) :
  (m <= n)%nat -> terminates_within toks r n -> terminates_within toks r m.
Proof. intros Hle H p Hp Hm. apply H; [assumption|lia]. Qed.

Lemma factor_step (n fuel : nat) :
  (forall m, (m < n)%nat ->
     terminates_within toks (factor fuel) m
     /\ terminates_within toks (expr fuel) m) ->
  terminates_within toks (factor (S fuel)) n.
Proof.
  intros IH p Hp Hn. cbn [factor]. unfold get_current_tok.
  destruct (on_token_current p Hp) as (t & -> & Hrem). cbn [bind].
  destruct (type_in (type_ t) [TT_INT; TT_FLOAT]) eqn:Hnum.
  { specialize (Hrem (type_in_not_eof t [TT_INT; TT_FLOAT] eq_refl Hnum)).
    destruct (on_token_advance p Hp Hrem) as (t1 & -> & Hp1 & Hr1).
    cbn [bind]. split; [congruence|].
    intros p' r' Heq. injection Heq as <- _. split; [assumption|lia]. }
  destruct (type_in (type_ t) [TT_PLUS; TT_MINUS]) eqn:Hsign.
  { specialize (Hrem (type_in_not_eof t [TT_PLUS; TT_MINUS] eq_refl Hsign)).
    destruct (on_token_advance p Hp Hrem) as (t1 & -> & Hp1 & Hr1).
    cbn [bind].
    destruct (IH (remaining (advance_state p)) ltac:(lia)) as [Hfac _].
    destruct (Hfac (advance_state p) Hp1 ltac:(lia)) as [Hno Hret].
    destruct (factor fuel (advance_state p)) as [[p2 r]| |]; cbn [bind];
      [|split; congruence|congruence].
    destruct (Hret p2 r eq_refl) as [Hp2 Hr2].
    destruct (register ParserResult_init r) as [res1 factor_].
    destruct (has_error res1); (split; [congruence|]);
      intros p' r' Heq; injection Heq as <- _; (split; [assumption|lia]). }
  destruct (TokenType_eqb (type_ t) TT_LPAREN) eqn:Hpar.
  { assert (Hne : type_ t <> TT_EOF)
      by (intros He; rewrite He in Hpar; discriminate).
    specialize (Hrem Hne).
    destruct (on_token_advance p Hp Hrem) as (t1 & -> & Hp1 & Hr1).
    cbn [bind].
    destruct (IH (remaining (advance_state p)) ltac:(lia)) as [_ Hexpr].
    destruct (Hexpr (advance_state p) Hp1 ltac:(lia)) as [Hno Hret].
    destruct (expr fuel (advance_state p)) as [[p2 r]| |]; cbn [bind];
      [|split; congruence|congruence].
    destruct (Hret p2 r eq_refl) as [Hp2 Hr2].
    destruct (register ParserResult_init r) as [res1 expr_].
    destruct (has_error res1).
    { split; [congruence|].
      intros p' r' Heq; injection Heq as <- _; (split; [assumption|lia]). }
    unfold get_current_tok.
    destruct (on_token_current p2 Hp2) as (t2 & -> & Hrem2). cbn [bind].
    destruct (TokenType_eqb (type_ t2) TT_RPAREN) eqn:Hclose.
    - assert (Hne2 : type_ t2 <> TT_EOF)
        by (intros He; rewrite He in Hclose; discriminate).
      specialize (Hrem2 Hne2).
      destruct (on_token_advance p2 Hp2 Hrem2) as (t3 & -> & Hp3 & Hr3).
      cbn [bind]. split; [congruence|].
      intros p' r' Heq; injection Heq as <- _; (split; [assumption|lia]).
    - destruct (fail_at_current_ends p2 res1 "Expected ')' ") as [Hno' Hsame].
      split; [exact Hno'|].
      intros p' r' Heq. rewrite (Hsame p' r' Heq). split; [assumption|lia]. }
  destruct (fail_at_current_ends p ParserResult_init "Expected int or float ")
    as [Hno' Hsame].
  split; [exact Hno'|].
  intros p' r' Heq. rewrite (Hsame p' r' Heq). split; [assumption|lia].
Qed.

Lemma rules_terminate (n : nat) :
  forall fuel,
    ((3 * n + 1 <= fuel)%nat -> terminates_within toks (factor fuel) n)
    /\ ((3 * n + 2 <= fuel)%nat -> terminates_within toks (term fuel) n)
    /\ ((3 * n + 3 <= fuel)%nat -> terminates_within toks (expr fuel) n).
Proof.
  induction n as [n IH] using lt_wf_ind. intros fuel.
  assert (Hfactor : forall f, (3 * n + 1 <= f)%nat ->
            terminates_within toks (factor f) n).
  { intros [|f] Hf; [lia|]. apply factor_step. intros m Hm.
    destruct (IH m Hm f) as (Hfac & _ & Hexp).
    split; [apply Hfac | apply Hexp]; lia. }
  assert (Hterm : forall f, (3 * n + 2 <= f)%nat ->
            terminates_within toks (term f) n).
  { intros [|f] Hf; [lia|]. cbn [term].
    apply bin_op_terminates; [reflexivity | apply Hfactor; lia | lia]. }
  split; [apply Hfactor|]. split; [apply Hterm|].
  destruct fuel as [|f]; intros Hf; [lia|]. cbn [expr].
  apply bin_op_terminates; [reflexivity | apply Hterm; lia | lia].
Qed.

Lemma parse_terminates (p : Parser) :
  on_token toks p ->
  parse (parse_fuel toks) p <> OutOfFuel.
Proof.
  intros Hp. unfold parse.
  destruct (rules_terminate (remaining p) (parse_fuel toks)) as (_ & _ & He).
  assert (Hfuel : (3 * remaining p + 3 <= parse_fuel toks)%nat).
  { destruct Hp as (Ht & Hidx & _). unfold remaining, parse_fuel.
    rewrite Ht. lia. }
  destruct (He Hfuel p Hp (le_n _)) as [Hno Hret].
  destruct (expr (parse_fuel toks) p) as [[p1 res]| |]; cbn [bind];
    [|congruence|congruence].
  destruct (negb (has_error res)); [|congruence].
  unfold get_current_tok. destruct (current_tok p1); cbn [bind];
    [|congruence].
  destruct (negb _); [|congruence].
  apply fail_at_current_ends.
Qed.

End ParserTermination.

(** X16. [run] ends on every text: it returns or raises.  The token list
    it hands to the parser ends with the end-of-input token, and on such a
    list every turn of a loop and every level of the recursion of the rules
    moves the cursor towards that token. *)
Lemma run_terminates (fn txt : string) : run fn txt <> OutOfFuel.
Proof.
  destruct (tokenize_cases fn txt)
    as [(_ & _ & ts & _ & Hrun)
       | [(pre & c & suf & _ & _ & _ & _ & Hrun)
         | (pre & ds & suf & _ & _ & _ & _ & _ & Hrun)]].
  3:{ unfold run.
      change (make_tokens (Lexer_init fn txt)) with (tokenize fn txt).
      rewrite Hrun. discriminate. }
  - unfold run.
    change (make_tokens (Lexer_init fn txt)) with (tokenize fn txt).
    rewrite Hrun. cbn [bind].
    remember (ts ++ [eof_token fn txt]) as toks eqn:Htoks.
    assert (Hend : ends_with_eof toks)
      by (exists ts, (eof_token fn txt); split; [exact Htoks|reflexivity]).
    assert (Hlen : (0 < List.length toks)%nat)
      by (rewrite Htoks, length_app; simpl; lia).
    assert (Hne : toks <> []) by (intros ->; simpl in Hlen; lia).
    destruct (Parser_init_invariant toks Hne)
      as (p0 & -> & Ht & Hi & _ & Hcur).
    cbn [bind].
    assert (Hp0 : on_token toks p0).
    { split; [exact Ht|]. rewrite Hi. split; [lia|].
      rewrite Hcur, Ht, Hi. f_equal. lia. }
    pose proof (parse_terminates toks Hend p0 Hp0) as Hno.
    destruct (parse (parse_fuel toks) p0) as [[p1 ast]| |]; cbn [bind];
      congruence.
  - rewrite (run_after_lex_error fn txt _ _ Hrun). discriminate.
Qed.

(** * Further properties of the lexer *)

Lemma Token_init_single (t : TokenType) (fn txt : string) (n : nat) :
  Token_init t VNone (Some (cursor fn txt n)) None = single_token t fn txt n.
Proof.
  unfold Token_init, single_token. cbn [option_map].
  change (Position_copy (cursor fn txt n)) with (cursor fn txt n).
  now rewrite Position_advance_cursor.
Qed.

(** Whatever holds of every number token and of every one-character token
    standing on its character holds of all the tokens of a successful scan
    but the last, which is the end-of-input token. *)
Lemma make_tokens_loop_inv (P : Token -> Prop) (fn txt : string) :
  (forall num d, P (number_of_scan num d)) ->
  (forall pre c suf t,
     txt = (pre ++ String c suf)%string ->
     classify c = CSingle t ->
     P (single_token t fn txt (String.length pre))) ->
  forall fuel suf pre toks out,
    txt = (pre ++ suf)%string ->
    (String.length suf < fuel)%nat ->
    make_tokens_loop fuel (lexer_on fn pre suf) toks = Returned (out, None) ->
    exists ts, out = toks ++ ts ++ [eof_token fn txt] /\ Forall P ts.
Proof.
  intros Hnum Hsingle.
  induction fuel as [|fuel IH]; intros suf pre toks out Htxt Hfuel; [lia|].
  rewrite make_tokens_loop_step.
  destruct suf as [|c s]; cbn [lexer_on current_char hd_char pos].
  - intros H. injection H as <-. exists []. split; [|constructor].
    cbn [app]. unfold eof_token. now rewrite str_app_nil_r, Htxt, str_app_nil_r.
  - fold (lexer_on fn pre (String c s)). simpl in Hfuel.
    destruct (classify c) eqn:Hcl.
    + destruct (classify_blank c Hcl) as (_ & _ & Hnl).
      rewrite (Lexer_advance_on fn pre c s Hnl).
      apply IH; [now rewrite str_snoc_app | lia].
    + apply classify_digit in Hcl.
      rewrite (make_number_on fn pre c s (S fuel) Hcl) by (simpl; lia).
      pose proof (scan_number_split (String c s) 0) as Hsplit.
      destruct (scan_number_digit c s 0 Hcl) as (n & r & d & Hscan).
      rewrite Hscan in *.
      destruct ((d =? 0) && too_long (String c n)); [discriminate|].
      cbn [bind]. intros Hrun.
      assert (Hlen : (String.length r < fuel)%nat).
      { apply (f_equal String.length) in Hsplit.
        rewrite str_app_length in Hsplit. simpl in Hsplit. lia. }
      destruct (IH r (pre ++ String c n)%string _ out
                  ltac:(now rewrite str_app_assoc, <- Hsplit) Hlen Hrun)
        as (ts & -> & Hall).
      exists (number_of_scan (String c n) d :: ts).
      split; [now rewrite <- app_assoc | constructor; [apply Hnum | exact Hall]].
    + destruct (classify_single c t Hcl) as (_ & Hnl & _).
      rewrite (Lexer_advance_on fn pre c s Hnl), <- Htxt, Token_init_single.
      intros Hrun.
      destruct (IH s (pre ++ String c "")%string _ out
                  ltac:(now rewrite str_snoc_app) ltac:(lia) Hrun)
        as (ts & -> & Hall).
      exists (single_token t fn txt (String.length pre) :: ts).
      split; [now rewrite <- app_assoc|].
      constructor; [now apply (Hsingle pre c s) | exact Hall].
    + discriminate.
Qed.

Lemma tokenize_inv (P : Token -> Prop) (fn txt : string) (out : list Token) :
  (forall num d, P (number_of_scan num d)) ->
  (forall pre c suf t,
     txt = (pre ++ String c suf)%string ->
     classify c = CSingle t ->
     P (single_token t fn txt (String.length pre))) ->
  tokenize fn txt = Returned (out, None) ->
  exists ts, out = ts ++ [eof_token fn txt] /\ Forall P ts.
Proof.
  intros Hnum Hsingle. unfold tokenize, make_tokens. rewrite Lexer_init_on.
  change (text (lexer_on fn "" txt)) with txt. intros Hrun.
  destruct (make_tokens_loop_inv P fn txt Hnum Hsingle
              (S (String.length txt)) txt "" [] out
              eq_refl ltac:(lia) Hrun) as (ts & -> & Hall).
  now exists ts.
Qed.

Lemma classify_single_char (c : ascii) (t : TokenType) :
  classify c = CSingle t -> token_char t = Some c /\ t <> TT_EOF.
Proof.
  destruct c as [[] [] [] [] [] [] [] []]; vm_compute; try discriminate;
    intros H; injection H as <-; split; (reflexivity || discriminate).
Qed.

Lemma number_of_scan_placed (fn txt num : string) (d : Z) :
  placed fn txt (number_of_scan num d).
Proof.
  unfold placed, number_of_scan.
  destruct (d =? 0); (split; [discriminate|]); left; repeat split.
Qed.

Lemma single_token_placed (fn txt pre : string) (c : ascii) (suf : string)
  (t : TokenType) :
  txt = (pre ++ String c suf)%string ->
  classify c = CSingle t ->
  placed fn txt (single_token t fn txt (String.length pre)).
Proof.
  intros Htxt Hcl. destruct (classify_single_char c t Hcl) as [Hch Hne].
  split; [exact Hne|]. right. exists (String.length pre), c.
  split; [reflexivity|]. split; [|exact Hch].
  rewrite Htxt. apply get_at_split.
Qed.

Lemma too_long_length (ds : string) :
  too_long ds = true -> int_max_str_digits < Z.of_nat (String.length ds).
Proof.
  unfold too_long. intros H. apply andb_prop in H as [_ H].
  now apply Z.ltb_lt.
Qed.

(** X1. [tokenize] ends on every text, in one of three ways.  It returns
    an illegal-character error, on the first character the scan rejects,
    together with the empty token list.  Or no character is rejected and
    it returns no error and a token list whose last token is the
    end-of-input token, placed behind the last character, and whose other
    tokens are not end-of-input tokens.  Or it raises [ValueError], which
    it does only on an integer literal of more digits than [int]
    converts.  It never raises anything else. *)
Theorem tokenize_outcomes (fn txt : string) :
  (exists e i,
     tokenize fn txt = Returned ([], Some e)
     /\ error_name e = "Illegal Character"
     /\ first_rejected AtStart txt = Some i
     /\ idx (err_pos_start e) = Z.of_nat i)
  \/ (exists ts,
        tokenize fn txt
        = Returned (ts ++ [single_token TT_EOF fn txt (String.length txt)],
                    None)
        /\ first_rejected AtStart txt = None
        /\ Forall (fun t => type_ t <> TT_EOF) ts)
  \/ (tokenize fn txt = Raised ValueError
      /\ exists pre ds suf,
          (txt = pre ++ ds ++ suf)%string
          /\ all_digits ds = true
          /\ too_long ds = true).
Proof.
  destruct (tokenize_cases fn txt)
    as [(_ & Hfr & ts & _ & Hrun)
       | [(pre & c & suf & _ & _ & Hfr & _ & Hrun)
         | (pre & ds & suf & Heq & _ & Hds & Hlong & _ & Hrun)]].
  - right. left.
    destruct (tokenize_inv (fun t => type_ t <> TT_EOF) fn txt _
                ltac:(intros num d; unfold number_of_scan;
                      destruct (d =? 0); discriminate)
                ltac:(intros pre c suf t _ Hcl;
                      apply (classify_single_char c t Hcl))
                Hrun) as (ts' & Heq & Hall).
    apply app_inj_tail in Heq as [<- _].
    exists ts. split; [|split; [exact Hfr | exact Hall]].
    now rewrite Hrun, eof_token_single.
  - left. exists (illegal_at fn txt pre c), (String.length pre).
    repeat split; assumption.
  - right. right. split; [exact Hrun|]. now exists pre, ds, suf.
Qed.

(** X2. In the tokens of a successful scan every one-character token
    carries the span of its character: with [i] the index of its start,
    the character at [i] of the text is the one of its type, the end is at
    [i + 1], and line and column are 0 and the index; the number tokens
    carry no position; the only other token is the end-of-input token. *)
Theorem tokens_are_placed (fn txt : string) (toks : list Token) (t : Token) :
  tokenize fn txt = Returned (toks, None) ->
  In t toks ->
  t = single_token TT_EOF fn txt (String.length txt) \/ placed fn txt t.
Proof.
  intros Hrun Hin.
  destruct (tokenize_inv (placed fn txt) fn txt toks
              (number_of_scan_placed fn txt)
              (single_token_placed fn txt) Hrun) as (ts & -> & Hall).
  apply in_app_or in Hin as [Hin | [<- | []]].
  - right. rewrite Forall_forall in Hall. now apply Hall.
  - left. apply eof_token_single.
Qed.

Lemma tokens_are_placed_witness :
  let fn := "<stdin>" in
  let txt := "(7" in
  let t := single_token TT_LPAREN fn txt 0 in
  t = single_token TT_EOF fn txt (String.length txt) \/ placed fn txt t.
Proof.
  cbv zeta.
  apply (tokens_are_placed "<stdin>" "(7"
           [single_token TT_LPAREN "<stdin>" "(7" 0; int_token 7;
            single_token TT_EOF "<stdin>" "(7" 2]).
  - reflexivity.
  - simpl. left. reflexivity.
Defined.

(** X3. A text of no more characters than [int] converts digits, in which
    every character is a digit, an operator, a parenthesis, a space or a
    tab (no dot), is tokenized without error. *)
Theorem tokenize_without_dot (fn txt : string) :
  has_illegal txt = false ->
  char_in "."%char txt = false ->
  Z.of_nat (String.length txt) <= int_max_str_digits ->
  exists ts,
    tokenize fn txt
    = Returned (ts ++ [single_token TT_EOF fn txt (String.length txt)], None).
Proof.
  intros Hill Hdot Hshort.
  destruct (tokenize_cases fn txt)
    as [(_ & _ & ts & _ & Hrun)
       | [(pre & c & suf & Heq & _ & _ & Hc & _)
         | (pre & ds & suf & Heq & _ & _ & Hlong & _ & _)]].
  - exists ts. now rewrite Hrun, eof_token_single.
  - exfalso. subst txt.
    rewrite has_illegal_app in Hill. rewrite char_in_app in Hdot.
    apply orb_false_elim in Hill as [_ Hill].
    apply orb_false_elim in Hdot as [_ Hdot].
    cbn [has_illegal char_in] in Hill, Hdot.
    apply orb_false_elim in Hill as [Hill _].
    apply orb_false_elim in Hdot as [Hdot _].
    destruct Hc as [Hc | ->].
    + rewrite Hc in Hill. discriminate.
    + discriminate.
  - exfalso. apply too_long_length in Hlong.
    rewrite Heq, !str_app_length in Hshort. lia.
Qed.

Lemma tokenize_without_dot_witness :
  exists ts,
    tokenize "<stdin>" "(1 + 2) * 3"
    = Returned (ts ++ [single_token TT_EOF "<stdin>" "(1 + 2) * 3" 11], None).
Proof.
  apply (tokenize_without_dot "<stdin>" "(1 + 2) * 3");
    [reflexivity | reflexivity | vm_compute; discriminate].
Defined.

Lemma digits1_head (ds r : string) :
  digits1 ds = true ->
  exists c s, (ds ++ r)%string = String c s /\ char_in c DIGITS = true.
Proof.
  destruct ds as [|c ds]; unfold digits1; cbn [all_digits has_digit];
    [discriminate|].
  intros H. apply andb_prop in H as [H _]. apply andb_prop in H as [H _].
  now exists c, (ds ++ r)%string.
Qed.



(** X5. The rendering of the error of a failed scan names the rejected
    character and the source, and gives line 1, or line 2 when the
    rejected character is a newline: the line is taken from the end of the
    span, behind the character. *)
Theorem lexing_error_as_string (fn txt : string) (toks : list Token)
  (e : Error) :
  tokenize fn txt = Returned (toks, Some e) ->
  exists pre c suf,
    (txt = pre ++ String c suf)%string
    /\ as_string e
       = ("Illegal Character: '"
          ++ String c ("'File " ++ fn ++ ", line "
                       ++ (if Ascii.eqb c newline then "2" else "1")))%string.
Proof.
  intros Hrun.
  destruct (tokenize_cases fn txt)
    as [(_ & _ & ts & _ & H)
       | [(pre & c & suf & Heq & _ & _ & _ & H)
         | (pre & ds & suf & _ & _ & _ & _ & _ & H)]];
    rewrite H in Hrun; [discriminate| |discriminate].
  injection Hrun as _ <-. exists pre, c, suf. split; [exact Heq|].
  unfold as_string, illegal_at, IllegalCharError, Position_advance, cursor.
  destruct (Ascii.eqb c newline); reflexivity.
Qed.

Lemma lexing_error_as_string_witness :
  exists pre c suf,
    ("1 ? 2" = pre ++ String c suf)%string
    /\ as_string (illegal_at "<stdin>" "1 ? 2" "1 " "?"%char)
       = ("Illegal Character: '"
          ++ String c ("'File " ++ "<stdin>" ++ ", line "
                       ++ (if Ascii.eqb c newline then "2" else "1")))%string.
Proof.
  apply (lexing_error_as_string "<stdin>" "1 ? 2" []). reflexivity.
Defined.



(** * Further properties of the parser *)

(** ** The cursor on an index *)

Lemma skipn_cons_nth {A : Type} (k : nat) (l : list A) (x : A) (r : list A) :
  skipn k l = x :: r -> nth_error l k = Some x /\ skipn (S k) l = r.
Proof.
  revert l. induction k as [|k IH]; intros [|y l] H; try discriminate.
  - injection H as -> ->. split; reflexivity.
  - apply IH. exact H.
Qed.

Lemma skipn_app_shift {A : Type} (a b l : list A) :
  forall k, skipn k l = a ++ b -> skipn (k + List.length a) l = b.
Proof.
  induction a as [|x a IH]; intros k H; cbn [List.length].
  - now rewrite Nat.add_0_r.
  - rewrite Nat.add_succ_r. apply (IH (S k)).
    now apply skipn_cons_nth in H as [_ H].
Qed.

Lemma skipn_app_nth {A : Type} (a : list A) (x : A) (r l : list A) (k : nat) :
  skipn k l = a ++ x :: r ->
  nth_error l (k + List.length a) = Some x
  /\ skipn (S (k + List.length a)) l = r.
Proof.
  intros H. apply skipn_app_shift in H. now apply skipn_cons_nth in H.
Qed.

Lemma current_at (toks : list Token) (k : nat) (t : Token) :
  nth_error toks k = Some t ->
  get_current_tok (parser_at toks k) = Returned t.
Proof. intros H. unfold get_current_tok, parser_at; cbn. now rewrite H. Qed.

Lemma advance_at (toks : list Token) (k : nat) (t : Token) :
  nth_error toks (S k) = Some t ->
  Parser_advance (parser_at toks k) = Returned (parser_at toks (S k), t).
Proof.
  intros H.
  assert (Hlt : (S k < List.length toks)%nat)
    by (apply nth_error_Some; congruence).
  unfold Parser_advance, advance_state, parser_at.
  cbn [tokens tok_idx current_tok].
  replace (Z.of_nat k + 1 <? Z.of_nat (List.length toks)) with true
    by (symmetry; apply Z.ltb_lt; lia).
  replace (Z.of_nat k + 1) with (Z.of_nat (S k)) by lia.
  rewrite Nat2Z.id. unfold get_current_tok. cbn [current_tok].
  rewrite H. reflexivity.
Qed.

Lemma Parser_init_at (t : Token) (r : list Token) :
  Parser_init (t :: r) = Returned (parser_at (t :: r) 0).
Proof. reflexivity. Qed.

Lemma type_in_app (t : TokenType) (a b : list TokenType) :
  type_in t (a ++ b) = type_in t a || type_in t b.
Proof. unfold type_in. apply existsb_app. Qed.

(** ** The loop of bin_op on a chain *)

Section Chain.

Variable toks : list Token.
Variable func : rule.
Variables ops ops_lo : list TokenType.
Variables lo hi : Cst -> bool.
Variable w : nat.

Hypothesis ops_disjoint :
  forall t, type_in t ops = true -> type_in t ops_lo = false.

Hypothesis hi_cases :
  forall c, hi c = true ->
    (lo c = true /\ turns ops c = O)
    \/ (exists l op r,
          c = CBin l op r /\ type_in (type_ op) ops = true
          /\ hi l = true /\ lo r = true).

Hypothesis func_ok :
  forall c k t0 rest,
    lo c = true ->
    (List.length (flatten c) <= w)%nat ->
    skipn k toks = flatten c ++ t0 :: rest ->
    type_in (type_ t0) ops_lo = false ->
    func (parser_at toks k)
    = Returned (parser_at toks (k + List.length (flatten c)),
                parsed (ast c)).

Lemma chain_prefix (c : Cst) :
  hi c = true ->
  (List.length (flatten c) <= w)%nat ->
  forall fuel k t0 rest,
    skipn k toks = flatten c ++ t0 :: rest ->
    type_in (type_ t0) ops_lo = false ->
    bin_op (turns ops c + fuel) func ops (parser_at toks k)
    = bin_op_loop fuel func ops
        (parser_at toks (k + List.length (flatten c)))
        ParserResult_init (Some (ast c)).
Proof.
  assert (Hbase : forall c, lo c = true -> turns ops c = O ->
            (List.length (flatten c) <= w)%nat ->
            forall fuel k t0 rest,
              skipn k toks = flatten c ++ t0 :: rest ->
              type_in (type_ t0) ops_lo = false ->
              bin_op (turns ops c + fuel) func ops (parser_at toks k)
              = bin_op_loop fuel func ops
                  (parser_at toks (k + List.length (flatten c)))
                  ParserResult_init (Some (ast c))).
  { intros c0 Hlo Ht Hw fuel k t0 rest Hskip Hstop.
    rewrite Ht. cbn [Nat.add]. unfold bin_op.
    rewrite (func_ok c0 k t0 rest Hlo Hw Hskip Hstop). reflexivity. }
  induction c as [t|op f IHf|lp e IHe rp|l IHl op r IHr];
    intros Hhi Hw fuel k t0 rest Hskip Hstop;
    destruct (hi_cases _ Hhi)
      as [[Hlo Ht] | (l' & op' & r' & Heq & Hop & Hl & Hr)];
    try discriminate Heq; try (now apply (Hbase _ Hlo Ht Hw _ _ t0 rest)).
  injection Heq as <- <- <-.
  cbn [flatten] in Hskip, Hw. rewrite length_app in Hw. cbn [List.length] in Hw.
  rewrite <- app_assoc in Hskip. cbn [app] in Hskip.
  cbn [turns]. rewrite Hop.
  replace (S (turns ops l) + fuel)%nat with (turns ops l + S fuel)%nat by lia.
  rewrite (IHl Hl ltac:(lia) (S fuel) k op (flatten r ++ t0 :: rest) Hskip
             (ops_disjoint _ Hop)).
  destruct (skipn_app_nth _ _ _ _ _ Hskip) as [Hcur Hnext].
  cbn [bin_op_loop]. rewrite (current_at _ _ _ Hcur). cbn [bind]. rewrite Hop.
  assert (Hadv : exists t1, nth_error toks (S (k + List.length (flatten l)))
                            = Some t1).
  { destruct (flatten r ++ t0 :: rest) as [|t1 q] eqn:Hq.
    - destruct (flatten r); discriminate.
    - exists t1. now apply skipn_cons_nth in Hnext as [Hn _]. }
  destruct Hadv as [t1 Hadv]. rewrite (advance_at _ _ _ Hadv). cbn [bind].
  rewrite (func_ok r _ t0 rest Hr ltac:(lia) Hnext Hstop). cbn [bind].
  cbn [register parsed error node flatten ast].
  rewrite length_app. cbn [List.length].
  replace (S (k + List.length (flatten l)) + List.length (flatten r))%nat
    with (k + (List.length (flatten l) + S (List.length (flatten r))))%nat
    by lia.
  reflexivity.
Qed.

Lemma chain_parses (c : Cst) (fuel k : nat) (t0 : Token) (rest : list Token) :
  hi c = true ->
  (List.length (flatten c) <= w)%nat ->
  skipn k toks = flatten c ++ t0 :: rest ->
  type_in (type_ t0) ops_lo = false ->
  type_in (type_ t0) ops = false ->
  (turns ops c < fuel)%nat ->
  bin_op fuel func ops (parser_at toks k)
  = Returned (parser_at toks (k + List.length (flatten c)), parsed (ast c)).
Proof.
  intros Hhi Hw Hskip Hlo Hops Hfuel.
  replace fuel with (turns ops c + S (fuel - turns ops c - 1))%nat by lia.
  rewrite (chain_prefix c Hhi Hw _ k t0 rest Hskip Hlo).
  destruct (skipn_app_nth _ _ _ _ _ Hskip) as [Hcur _].
  cbn [bin_op_loop]. rewrite (current_at _ _ _ Hcur). cbn [bind].
  rewrite Hops. reflexivity.
Qed.

End Chain.

(** ** The rules on the derivations of the grammar *)

Lemma TokenType_eqb_eq (a b : TokenType) : TokenType_eqb a b = true -> a = b.
Proof. destruct a, b; (reflexivity || discriminate). Qed.

Lemma term_op_not_expr_op (t : TokenType) :
  type_in t [TT_MUL; TT_DIV] = true -> type_in t [TT_PLUS; TT_MINUS] = false.
Proof. destruct t; (reflexivity || discriminate). Qed.

Lemma expr_op_not_term_op (t : TokenType) :
  type_in t [TT_PLUS; TT_MINUS] = true -> type_in t [TT_MUL; TT_DIV] = false.
Proof. destruct t; (reflexivity || discriminate). Qed.

Lemma expr_op_not_number (t : TokenType) :
  type_in t [TT_PLUS; TT_MINUS] = true -> type_in t [TT_INT; TT_FLOAT] = false.
Proof. destruct t; (reflexivity || discriminate). Qed.

Lemma turns_le (ops : list TokenType) (c : Cst) :
  (turns ops c <= List.length (flatten c))%nat.
Proof.
  induction c as [t|op f IHf|lp e IHe rp|l IHl op r IHr]; cbn [turns flatten];
    try lia.
  rewrite length_app. cbn [List.length].
  destruct (type_in (type_ op) ops); lia.
Qed.

Lemma flatten_head (c : Cst) :
  forall q, exists t q', flatten c ++ q = t :: q'.
Proof.
  induction c as [t|op f IHf|lp e IHe rp|l IHl op r IHr]; intros q;
    cbn [flatten app].
  - now eexists _, _.
  - now eexists _, _.
  - now eexists _, _.
  - rewrite <- app_assoc. apply IHl.
Qed.

Lemma term_cases (c : Cst) :
  shape LTerm c = true ->
  (shape LFactor c = true /\ turns [TT_MUL; TT_DIV] c = O)
  \/ (exists l op r,
        c = CBin l op r /\ type_in (type_ op) [TT_MUL; TT_DIV] = true
        /\ shape LTerm l = true /\ shape LFactor r = true).
Proof.
  destruct c as [t|op f|lp e rp|l op r]; cbn [shape turns]; intros H;
    try (left; split; [exact H | reflexivity]).
  right. apply andb_prop in H as [H Hr]. apply andb_prop in H as [Hop Hl].
  now exists l, op, r.
Qed.

Lemma expr_cases (c : Cst) :
  shape LExpr c = true ->
  (shape LTerm c = true /\ turns [TT_PLUS; TT_MINUS] c = O)
  \/ (exists l op r,
        c = CBin l op r /\ type_in (type_ op) [TT_PLUS; TT_MINUS] = true
        /\ shape LExpr l = true /\ shape LTerm r = true).
Proof.
  destruct c as [t|op f|lp e rp|l op r]; cbn [shape turns]; intros H;
    try (left; split; [exact H | reflexivity]).
  apply orb_prop in H as [H | H].
  - left. split; [exact H|].
    apply andb_prop in H as [H _]. apply andb_prop in H as [Hop _].
    unfold is_term_op in Hop. now rewrite (term_op_not_expr_op _ Hop).
  - right. apply andb_prop in H as [H Hr]. apply andb_prop in H as [Hop Hl].
    now exists l, op, r.
Qed.

Lemma factor_parses_step (toks : list Token) (w fuel : nat) :
  (forall m, (m < w)%nat ->
     parses_level toks (factor fuel) LFactor [] m
     /\ parses_level toks (expr fuel) LExpr
          [TT_PLUS; TT_MINUS; TT_MUL; TT_DIV] m) ->
  parses_level toks (factor (S fuel)) LFactor [] w.
Proof.
  intros IH c k t0 rest Hshape Hw Hskip _.
  destruct c as [t|op f|lp e rp|l op r]; cbn [shape] in Hshape;
    [| | |discriminate]; cbn [flatten List.length] in *.
  - cbn [app] in Hskip.
    apply skipn_cons_nth in Hskip as [Hcur Hnext].
    apply skipn_cons_nth in Hnext as [Hnext _].
    cbn [factor]. rewrite (current_at _ _ _ Hcur). cbn [bind].
    rewrite Hshape, (advance_at _ _ _ Hnext). cbn [bind].
    now rewrite Nat.add_1_r.
  - apply andb_prop in Hshape as [Hop Hf]. unfold is_expr_op in Hop.
    cbn [app] in Hskip.
    apply skipn_cons_nth in Hskip as [Hcur Hnext].
    destruct (flatten_head f (t0 :: rest)) as (t1 & q & Hq).
    assert (Hadv : nth_error toks (S k) = Some t1)
      by (rewrite Hq in Hnext; now apply skipn_cons_nth in Hnext).
    cbn [factor]. rewrite (current_at _ _ _ Hcur). cbn [bind].
    rewrite (expr_op_not_number _ Hop), Hop, (advance_at _ _ _ Hadv).
    cbn [bind].
    destruct (IH (List.length (flatten f)) ltac:(lia)) as [Hfac _].
    rewrite (Hfac f (S k) t0 rest Hf (le_n _) Hnext eq_refl). cbn [bind].
    cbn [register parsed error node has_error ParserResult_init ast].
    now rewrite Nat.add_succ_r.
  - apply andb_prop in Hshape as [Hshape He].
    apply andb_prop in Hshape as [Hlp Hrp].
    apply TokenType_eqb_eq in Hlp. apply TokenType_eqb_eq in Hrp.
    rewrite length_app in Hw. cbn [List.length] in Hw.
    cbn [app] in Hskip. rewrite <- app_assoc in Hskip. cbn [app] in Hskip.
    apply skipn_cons_nth in Hskip as [Hcur Hnext].
    destruct (flatten_head e (rp :: t0 :: rest)) as (t1 & q & Hq).
    assert (Hadv : nth_error toks (S k) = Some t1)
      by (rewrite Hq in Hnext; now apply skipn_cons_nth in Hnext).
    cbn [factor]. rewrite (current_at _ _ _ Hcur). cbn [bind].
    rewrite Hlp. cbn [type_in existsb TokenType_eqb orb].
    rewrite (advance_at _ _ _ Hadv). cbn [bind].
    destruct (IH (List.length (flatten e)) ltac:(lia)) as [_ Hexpr].
    rewrite (Hexpr e (S k) rp (t0 :: rest) He (le_n _) Hnext
               ltac:(now rewrite Hrp)).
    cbn [bind register parsed error node has_error ParserResult_init ast].
    destruct (skipn_app_nth _ _ _ _ _ Hnext) as [Hcur2 Hnext2].
    apply skipn_cons_nth in Hnext2 as [Hadv2 _].
    rewrite (current_at _ _ _ Hcur2). cbn [bind]. rewrite Hrp.
    cbn [TokenType_eqb]. rewrite (advance_at _ _ _ Hadv2). cbn [bind].
    rewrite length_app. cbn [List.length].
    replace (S (S k + List.length (flatten e)))
      with (k + S (List.length (flatten e) + 1))%nat by lia.
    reflexivity.
Qed.

Lemma rules_parse (toks : list Token) (w : nat) :
  forall fuel,
    ((3 * w + 1 <= fuel)%nat ->
     parses_level toks (factor fuel) LFactor [] w)
    /\ ((3 * w + 2 <= fuel)%nat ->
        parses_level toks (term fuel) LTerm [TT_MUL; TT_DIV] w)
    /\ ((3 * w + 3 <= fuel)%nat ->
        parses_level toks (expr fuel) LExpr
          [TT_PLUS; TT_MINUS; TT_MUL; TT_DIV] w).
Proof.
  induction w as [w IH] using lt_wf_ind. intros fuel.
  assert (Hfactor : forall f, (3 * w + 1 <= f)%nat ->
            parses_level toks (factor f) LFactor [] w).
  { intros [|f] Hf; [lia|]. apply factor_parses_step. intros m Hm.
    destruct (IH m Hm f) as (Hfac & _ & Hexp).
    split; [apply Hfac | apply Hexp]; lia. }
  assert (Hterm : forall f, (3 * w + 2 <= f)%nat ->
            parses_level toks (term f) LTerm [TT_MUL; TT_DIV] w).
  { intros [|f] Hf; [lia|]. intros c k t0 rest Hs Hw Hskip Hstop.
    cbn [term].
    apply (chain_parses toks (factor f) [TT_MUL; TT_DIV] []
             (shape LFactor) (shape LTerm) w
             ltac:(reflexivity) term_cases (Hfactor f ltac:(lia))
             c f k t0 rest Hs Hw Hskip eq_refl Hstop).
    pose proof (turns_le [TT_MUL; TT_DIV] c). lia. }
  split; [apply Hfactor|]. split; [apply Hterm|].
  destruct fuel as [|f]; intros Hf; [lia|].
  intros c k t0 rest Hs Hw Hskip Hstop. cbn [expr].
  change [TT_PLUS; TT_MINUS; TT_MUL; TT_DIV]
    with ([TT_PLUS; TT_MINUS] ++ [TT_MUL; TT_DIV]) in Hstop.
  rewrite type_in_app in Hstop. apply orb_false_elim in Hstop as [Hpm Hmd].
  apply (chain_parses toks (term f) [TT_PLUS; TT_MINUS] [TT_MUL; TT_DIV]
           (shape LTerm) (shape LExpr) w
           expr_op_not_term_op expr_cases (Hterm f ltac:(lia))
           c f k t0 rest Hs Hw Hskip Hmd Hpm).
  pose proof (turns_le [TT_PLUS; TT_MINUS] c). lia.
Qed.

(** The rule [expr], with the fuel of [run], parses a derivation that
    starts the token list. *)
Lemma expr_on_derivation (c : Cst) (t0 : Token) (rest : list Token)
  (fuel : nat) :
  shape LExpr c = true ->
  type_in (type_ t0) [TT_PLUS; TT_MINUS; TT_MUL; TT_DIV] = false ->
  (3 * List.length (flatten c) + 3 <= fuel)%nat ->
  let toks := flatten c ++ t0 :: rest in
  Parser_init toks = Returned (parser_at toks 0)
  /\ expr fuel (parser_at toks 0)
     = Returned (parser_at toks (List.length (flatten c)), parsed (ast c))
  /\ current_tok (parser_at toks (List.length (flatten c))) = Some t0.
Proof.
  intros Hs Hstop Hfuel toks. split; [|split].
  - unfold toks. destruct (flatten_head c (t0 :: rest)) as (t & q & ->).
    apply Parser_init_at.
  - destruct (rules_parse toks (List.length (flatten c)) fuel)
      as (_ & _ & Hexpr).
    apply (Hexpr Hfuel c 0%nat t0 rest Hs (le_n _) eq_refl Hstop).
  - unfold parser_at. cbn [current_tok].
    apply (skipn_app_nth (flatten c) t0 rest toks 0%nat eq_refl).
Qed.

Lemma parse_fuel_covers (a : list Token) (t : Token) (b : list Token) :
  (3 * List.length a + 3 <= parse_fuel (a ++ t :: b))%nat.
Proof. unfold parse_fuel. rewrite length_app. cbn [List.length]. lia. Qed.

(** ** More fuel changes nothing

    A rule that came back, with a result or an exception, comes back the
    same with more fuel.  What holds of a rule with enough fuel therefore
    holds of it whenever it comes back. *)

Lemma bin_op_loop_mono (func func' : rule) (ops : list TokenType) :
  (forall p, func p <> OutOfFuel -> func' p = func p) ->
  forall fuel fuel' p res left_,
    (fuel <= fuel')%nat ->
    bin_op_loop fuel func ops p res left_ <> OutOfFuel ->
    bin_op_loop fuel' func' ops p res left_
    = bin_op_loop fuel func ops p res left_.
Proof.
  intros Hfunc.
  induction fuel as [|fuel IH]; intros fuel' p res left_ Hle Hne;
    [now contradiction Hne|].
  destruct fuel' as [|fuel']; [lia|].
  cbn [bin_op_loop] in *.
  destruct (get_current_tok p) as [t| |]; cbn [bind] in *; try reflexivity.
  destruct (type_in (type_ t) ops); [|reflexivity].
  destruct (Parser_advance p) as [[p1 t1]| |]; cbn [bind] in *;
    try reflexivity.
  destruct (func p1) as [[p2 r]| |] eqn:Hf; cbn [bind] in *.
  - rewrite (Hfunc p1) by (rewrite Hf; discriminate). rewrite Hf.
    cbn [bind]. destruct (register res r) as [res1 right_].
    apply IH; [lia | exact Hne].
  - rewrite (Hfunc p1) by (rewrite Hf; discriminate). now rewrite Hf.
  - now contradiction Hne.
Qed.

Lemma bin_op_mono (func func' : rule) (ops : list TokenType)
  (fuel fuel' : nat) (p : Parser) :
  (forall q, func q <> OutOfFuel -> func' q = func q) ->
  (fuel <= fuel')%nat ->
  bin_op fuel func ops p <> OutOfFuel ->
  bin_op fuel' func' ops p = bin_op fuel func ops p.
Proof.
  intros Hfunc Hle. unfold bin_op.
  destruct (func p) as [[p1 r]| |] eqn:Hf; cbn [bind]; intros Hne.
  - rewrite (Hfunc p) by (rewrite Hf; discriminate). rewrite Hf.
    cbn [bind]. destruct (register ParserResult_init r) as [res1 left_].
    now apply bin_op_loop_mono.
  - rewrite (Hfunc p) by (rewrite Hf; discriminate). now rewrite Hf.
  - now contradiction Hne.
Qed.

Lemma rules_mono (fuel : nat) :
  forall fuel',
    (fuel <= fuel')%nat ->
    (forall p, factor fuel p <> OutOfFuel -> factor fuel' p = factor fuel p)
    /\ (forall p, term fuel p <> OutOfFuel -> term fuel' p = term fuel p)
    /\ (forall p, expr fuel p <> OutOfFuel -> expr fuel' p = expr fuel p).
Proof.
  induction fuel as [|fuel IH]; intros fuel' Hle.
  - repeat split; intros p Hne; now contradiction Hne.
  - destruct fuel' as [|fuel']; [lia|].
    destruct (IH fuel' ltac:(lia)) as (Hfac & Hterm & Hexp).
    split; [|split].
    + intros p. cbn [factor].
      destruct (get_current_tok p) as [t| |]; cbn [bind]; try reflexivity.
      destruct (type_in (type_ t) [TT_INT; TT_FLOAT]); [reflexivity|].
      destruct (type_in (type_ t) [TT_PLUS; TT_MINUS]).
      { destruct (Parser_advance p) as [[p1 t1]| |]; cbn [bind];
          try reflexivity.
        destruct (factor fuel p1) as [[p2 r]| |] eqn:Hf; cbn [bind];
          intros Hne; [| |now contradiction Hne];
          rewrite (Hfac p1) by (rewrite Hf; discriminate);
          now rewrite Hf. }
      destruct (TokenType_eqb (type_ t) TT_LPAREN); [|reflexivity].
      destruct (Parser_advance p) as [[p1 t1]| |]; cbn [bind];
        try reflexivity.
      destruct (expr fuel p1) as [[p2 r]| |] eqn:Hf; cbn [bind];
        intros Hne; [| |now contradiction Hne];
        rewrite (Hexp p1) by (rewrite Hf; discriminate);
        now rewrite Hf.
    + intros p. cbn [term]. apply bin_op_mono; [exact Hfac | lia].
    + intros p. cbn [expr]. apply bin_op_mono; [exact Hterm | lia].
Qed.

Lemma parse_mono (fuel fuel' : nat) (p : Parser) :
  (fuel <= fuel')%nat ->
  parse fuel p <> OutOfFuel ->
  parse fuel' p = parse fuel p.
Proof.
  intros Hle. unfold parse.
  destruct (rules_mono fuel fuel' Hle) as (_ & _ & Hexp).
  destruct (expr fuel p) as [[p1 r]| |] eqn:He; cbn [bind]; intros Hne.
  - rewrite (Hexp p) by (rewrite He; discriminate). now rewrite He.
  - rewrite (Hexp p) by (rewrite He; discriminate). now rewrite He.
  - now contradiction Hne.
Qed.

(** What [parse] gives with enough fuel it gives whenever it returns. *)
Lemma parse_whenever (fuel big : nat) (p : Parser)
  (out : outcome (Parser * ParserResult)) :
  (forall f, (big <= f)%nat -> parse f p = out) ->
  parse fuel p <> OutOfFuel ->
  parse fuel p = out.
Proof.
  intros Hbig Hne.
  rewrite <- (parse_mono fuel (Nat.max fuel big) p (Nat.le_max_l _ _) Hne).
  apply Hbig. apply Nat.le_max_r.
Qed.

Lemma parse_derivation_enough (c : Cst) (eof : Token) (rest : list Token)
  (fuel : nat) :
  shape LExpr c = true ->
  type_ eof = TT_EOF ->
  (3 * List.length (flatten c) + 3 <= fuel)%nat ->
  let toks := flatten c ++ eof :: rest in
  Parser_init toks = Returned (parser_at toks 0)
  /\ parse fuel (parser_at toks 0)
     = Returned (parser_at toks (List.length (flatten c)), parsed (ast c)).
Proof.
  intros Hs Heof Hfuel toks.
  destruct (expr_on_derivation c eof rest fuel Hs
              ltac:(now rewrite Heof) Hfuel) as (Hinit & Hexpr & Hcur).
  fold toks in Hinit, Hexpr, Hcur. split; [exact Hinit|].
  unfold parse. rewrite Hexpr. cbn [bind parsed has_error error negb].
  unfold get_current_tok. rewrite Hcur. cbn [bind]. rewrite Heof.
  reflexivity.
Qed.



Lemma not_operator_nor_eof (t : TokenType) :
  type_in t [TT_PLUS; TT_MINUS; TT_MUL; TT_DIV; TT_EOF] = false ->
  type_in t [TT_PLUS; TT_MINUS; TT_MUL; TT_DIV] = false /\ t <> TT_EOF.
Proof. destruct t; try discriminate; split; (reflexivity || discriminate). Qed.

Lemma number_not_operator_nor_eof (t : TokenType) :
  type_in t [TT_INT; TT_FLOAT] = true ->
  type_in t [TT_PLUS; TT_MINUS; TT_MUL; TT_DIV] = false /\ t <> TT_EOF.
Proof. destruct t; try discriminate; split; (reflexivity || discriminate). Qed.





(** A failed operand before a token that is no operator of the rule:
    [bin_op] hands the failure on. *)
Lemma bin_op_failed (func : rule) (ops : list TokenType) (fuel : nat)
  (p p1 : Parser) (e : Error) (t : Token) :
  func p = Returned (p1, mkParserResult (Some e) None) ->
  current_tok p1 = Some t ->
  type_in (type_ t) ops = false ->
  bin_op (S fuel) func ops p = Returned (p1, mkParserResult (Some e) None).
Proof.
  intros Hfunc Hcur Hops. unfold bin_op. rewrite Hfunc.
  cbn [bind register error node bin_op_loop]. unfold get_current_tok.
  rewrite Hcur. cbn [bind]. rewrite Hops. reflexivity.
Qed.

Lemma unterminated_paren_enough (lp : Token) (c : Cst) (eof : Token)
  (rest : list Token) (ps pe : Position) (fuel : nat) :
  type_ lp = TT_LPAREN ->
  shape LExpr c = true ->
  type_ eof = TT_EOF ->
  pos_start eof = Some ps ->
  pos_end eof = Some pe ->
  (3 * List.length (flatten c) + 6 <= fuel)%nat ->
  let toks := lp :: flatten c ++ eof :: rest in
  parse fuel (parser_at toks 0)
  = Returned (parser_at toks (S (List.length (flatten c))),
              mkParserResult
                (Some (InvalidSyntaxError ps pe "Expected ')' ")) None).
Proof.
  intros Hlp Hs Heof Hps Hpe Hfuel toks.
  assert (Hf3 : exists f, fuel = S (S (S f))
                          /\ (3 * List.length (flatten c) + 3 <= f)%nat)
    by (exists (fuel - 3)%nat; lia).
  destruct Hf3 as (f & -> & Hf).
  assert (Hcur : current_tok (parser_at toks (S (List.length (flatten c))))
                 = Some eof).
  { unfold parser_at. cbn [current_tok].
    apply (skipn_app_nth (flatten c) eof rest toks 1%nat eq_refl). }
  assert (Hfactor : factor (S f) (parser_at toks 0)
                    = Returned (parser_at toks (S (List.length (flatten c))),
                                mkParserResult
                                  (Some (InvalidSyntaxError ps pe
                                           "Expected ')' ")) None)).
  { cbn [factor]. rewrite (current_at toks 0 lp eq_refl). cbn [bind].
    rewrite Hlp. cbn [type_in existsb TokenType_eqb orb].
    destruct (flatten_head c (eof :: rest)) as (t1 & q & Hq).
    assert (Hadv : nth_error toks 1 = Some t1)
      by (unfold toks; rewrite Hq; reflexivity).
    rewrite (advance_at _ _ _ Hadv). cbn [bind].
    destruct (rules_parse toks (List.length (flatten c)) f)
      as (_ & _ & Hexpr).
    rewrite (Hexpr Hf c 1%nat eof rest Hs (le_n _) eq_refl
               ltac:(now rewrite Heof)).
    cbn [bind register parsed error node has_error ParserResult_init Nat.add].
    unfold get_current_tok. rewrite Hcur. cbn [bind]. rewrite Heof.
    cbn [TokenType_eqb]. unfold fail_at_current, get_current_tok,
      get_pos_start, get_pos_end.
    rewrite Hcur. cbn [bind]. rewrite Hps, Hpe. reflexivity. }
  assert (Hterm : term (S (S f)) (parser_at toks 0)
                  = Returned (parser_at toks (S (List.length (flatten c))),
                              mkParserResult
                                (Some (InvalidSyntaxError ps pe
                                         "Expected ')' ")) None)).
  { cbn [term]. apply (bin_op_failed _ _ _ _ _ _ eof Hfactor Hcur).
    now rewrite Heof. }
  unfold parse. cbn [expr].
  rewrite (bin_op_failed _ [TT_PLUS; TT_MINUS] _ _ _ _ eof Hterm Hcur
             ltac:(now rewrite Heof)).
  reflexivity.
Qed.



(** ** What the rules accept *)

Lemma skipn_in_range {A : Type} (l : list A) (k : nat) :
  (k < List.length l)%nat -> exists x r, skipn k l = x :: r.
Proof.
  revert l. induction k as [|k IH]; intros [|y l] H; simpl in H; try lia.
  - now exists y, l.
  - apply IH. lia.
Qed.

Lemma skipn_nth_cons {A : Type} (l : list A) (k : nat) (x : A) :
  nth_error l k = Some x -> skipn k l = x :: skipn (S k) l.
Proof.
  revert l. induction k as [|k IH]; intros [|y l] H; try discriminate.
  - injection H as ->. reflexivity.
  - apply IH. exact H.
Qed.

Lemma register_no_error (res r res1 : ParserResult) (n : option Node) :
  register res r = (res1, n) ->
  error res1 = None ->
  error res = None /\ error r = None /\ res1 = res /\ n = node r.
Proof.
  unfold register. destruct (error r) as [e|] eqn:Hr; intros H Herr;
    injection H as <- <-; [discriminate|]. repeat split; assumption.
Qed.

Lemma register_keeps_error (res r : ParserResult) :
  error res <> None -> error (fst (register res r)) <> None.
Proof.
  unfold register. destruct (error r); cbn [fst error]; congruence.
Qed.

Lemma bin_op_loop_keeps_error (func : rule) (ops : list TokenType) :
  forall fuel p res left_ p' res',
    error res <> None ->
    bin_op_loop fuel func ops p res left_ = Returned (p', res') ->
    error res' <> None.
Proof.
  induction fuel as [|fuel IH]; intros p res left_ p' res' Herr;
    [discriminate|].
  cbn [bin_op_loop].
  destruct (get_current_tok p) as [t| |]; cbn [bind]; try discriminate.
  destruct (type_in (type_ t) ops).
  - destruct (Parser_advance p) as [[p1 t1]| |]; cbn [bind];
      try discriminate.
    destruct (func p1) as [[p2 r]| |]; cbn [bind]; try discriminate.
    pose proof (register_keeps_error res r Herr) as Hkeep.
    destruct (register res r) as [res1 right_]. apply IH. exact Hkeep.
  - intros H. injection H as _ <-. exact Herr.
Qed.

Lemma fail_at_current_error (p : Parser) (res : ParserResult) (d : string)
  (p' : Parser) (r : ParserResult) :
  fail_at_current p res d = Returned (p', r) -> error r <> None.
Proof.
  unfold fail_at_current.
  destruct (get_current_tok p) as [t| |]; cbn [bind]; try discriminate.
  destruct (get_pos_start t); cbn [bind]; try discriminate.
  destruct (get_pos_end t); cbn [bind]; try discriminate.
  intros H. injection H as _ <-. discriminate.
Qed.

Section Soundness.

Variable toks : list Token.
Hypothesis toks_end : ends_with_eof toks.

(** A token that is not the end of input is not the last one. *)
Lemma advance_in_range (k : nat) (t : Token) :
  nth_error toks k = Some t ->
  type_ t <> TT_EOF ->
  exists t1 rest,
    skipn (S k) toks = t1 :: rest
    /\ Parser_advance (parser_at toks k)
       = Returned (parser_at toks (S k), t1).
Proof.
  intros Hcur Hne. destruct toks_end as (ts & e & Hts & Heof).
  assert (Hlt : (S k < List.length toks)%nat).
  { assert (Hk : (k < List.length toks)%nat)
      by (apply nth_error_Some; congruence).
    rewrite Hts, length_app in *. cbn [List.length] in *.
    destruct (Nat.eq_dec k (List.length ts)) as [->|]; [|lia].
    rewrite nth_error_app2, Nat.sub_diag in Hcur by lia.
    injection Hcur as <-. contradiction. }
  destruct (skipn_in_range toks (S k) Hlt) as (t1 & rest & Hskip).
  exists t1, rest. split; [exact Hskip|].
  apply advance_at. now apply skipn_cons_nth in Hskip.
Qed.

Section Loop.

Variable func : rule.
Variable ops : list TokenType.
Variables lo hi : Cst -> bool.

Hypothesis ops_not_eof : type_in TT_EOF ops = false.
Hypothesis hi_of_lo : forall c, lo c = true -> hi c = true.
Hypothesis hi_of_bin :
  forall l op r,
    hi l = true -> type_in (type_ op) ops = true -> lo r = true ->
    hi (CBin l op r) = true.
Hypothesis func_derives :
  forall k p' res,
    (k < List.length toks)%nat ->
    func (parser_at toks k) = Returned (p', res) ->
    error res = None ->
    exists c t0 rest,
      lo c = true
      /\ node res = Some (ast c)
      /\ p' = parser_at toks (k + List.length (flatten c))
      /\ skipn k toks = flatten c ++ t0 :: rest.

Lemma bin_op_loop_derives (k0 : nat) :
  forall fuel c t0 rest res p' res',
    hi c = true ->
    skipn k0 toks = flatten c ++ t0 :: rest ->
    bin_op_loop fuel func ops
      (parser_at toks (k0 + List.length (flatten c))) res (Some (ast c))
    = Returned (p', res') ->
    error res' = None ->
    exists c' t0' rest',
      hi c' = true
      /\ node res' = Some (ast c')
      /\ p' = parser_at toks (k0 + List.length (flatten c'))
      /\ skipn k0 toks = flatten c' ++ t0' :: rest'.
Proof.
  induction fuel as [|fuel IH]; intros c t0 rest res p' res' Hhi Hskip;
    [discriminate|].
  destruct (skipn_app_nth _ _ _ _ _ Hskip) as [Hcur Hnext].
  cbn [bin_op_loop]. rewrite (current_at _ _ _ Hcur). cbn [bind].
  destruct (type_in (type_ t0) ops) eqn:Hop.
  - destruct (advance_in_range _ t0 Hcur
                (type_in_not_eof t0 ops ops_not_eof Hop))
      as (t1 & q & Hq & ->).
    cbn [bind].
    destruct (func (parser_at toks (S (k0 + List.length (flatten c)))))
      as [[p2 r]| |] eqn:Hfunc; cbn [bind]; try discriminate.
    destruct (register res r) as [res1 right_] eqn:Hreg.
    intros Hloop Herr.
    destruct (error res1) as [e1|] eqn:Hres1.
    { exfalso.
      apply (bin_op_loop_keeps_error func ops _ _ _ _ _ _
               ltac:(rewrite Hres1; discriminate) Hloop).
      exact Herr. }
    destruct (register_no_error _ _ _ _ Hreg Hres1)
      as (Hres & Hr & -> & ->).
    assert (Hlt : (S (k0 + List.length (flatten c)) < List.length toks)%nat).
    { apply nth_error_Some.
      apply skipn_cons_nth in Hq as [Hq _]. congruence. }
    destruct (func_derives _ _ _ Hlt Hfunc Hr)
      as (cr & t0' & rest' & Hlo & Hnode & -> & Hskipr).
    rewrite Hnode in Hloop.
    assert (Hskip' : skipn k0 toks
                     = flatten (CBin c t0 cr) ++ t0' :: rest').
    { rewrite Hskip. cbn [flatten]. rewrite <- app_assoc. cbn [app].
      rewrite Hnext in Hskipr. now rewrite Hskipr. }
    apply (IH (CBin c t0 cr) t0' rest' res p' res'
             (hi_of_bin _ _ _ Hhi Hop Hlo) Hskip'); [|exact Herr].
    cbn [flatten ast]. rewrite length_app. cbn [List.length].
    replace (k0 + (List.length (flatten c) + S (List.length (flatten cr))))%nat
      with (S (k0 + List.length (flatten c)) + List.length (flatten cr))%nat
      by lia.
    exact Hloop.
  - intros H Herr. injection H as <- <-.
    now exists c, t0, rest.
Qed.

Lemma bin_op_derives (fuel : nat) :
  forall k p' res,
    (k < List.length toks)%nat ->
    bin_op fuel func ops (parser_at toks k) = Returned (p', res) ->
    error res = None ->
    exists c t0 rest,
      hi c = true
      /\ node res = Some (ast c)
      /\ p' = parser_at toks (k + List.length (flatten c))
      /\ skipn k toks = flatten c ++ t0 :: rest.
Proof.
  intros k p' res Hk. unfold bin_op.
  destruct (func (parser_at toks k)) as [[p1 r]| |] eqn:Hfunc; cbn [bind];
    try discriminate.
  destruct (register ParserResult_init r) as [res1 left_] eqn:Hreg.
  intros Hloop Herr.
  destruct (error res1) as [e1|] eqn:Hres1.
  { exfalso.
    apply (bin_op_loop_keeps_error func ops _ _ _ _ _ _
             ltac:(rewrite Hres1; discriminate) Hloop).
    exact Herr. }
  destruct (register_no_error _ _ _ _ Hreg Hres1) as (_ & Hr & -> & ->).
  destruct (func_derives _ _ _ Hk Hfunc Hr)
    as (c & t0 & rest & Hlo & Hnode & -> & Hskip).
  rewrite Hnode in Hloop.
  apply (bin_op_loop_derives k fuel c t0 rest _ p' res
           (hi_of_lo _ Hlo) Hskip Hloop Herr).
Qed.

End Loop.

Lemma shape_factor_term (c : Cst) :
  shape LFactor c = true -> shape LTerm c = true.
Proof. destruct c; cbn [shape]; (discriminate || trivial). Qed.

Lemma shape_term_expr (c : Cst) :
  shape LTerm c = true -> shape LExpr c = true.
Proof.
  destruct c; cbn [shape]; trivial. intros ->. reflexivity.
Qed.

Lemma factor_derives_step (fuel : nat) :
  derives toks (factor fuel) LFactor ->
  derives toks (expr fuel) LExpr ->
  derives toks (factor (S fuel)) LFactor.
Proof.
  intros Hfac Hexp k p' res Hk.
  destruct (skipn_in_range toks k Hk) as (t & q & Hskip).
  pose proof Hskip as Hcur. apply skipn_cons_nth in Hcur as [Hcur Hnext].
  cbn [factor]. rewrite (current_at _ _ _ Hcur). cbn [bind].
  destruct (type_in (type_ t) [TT_INT; TT_FLOAT]) eqn:Hnum.
  { destruct (advance_in_range k t Hcur
                (type_in_not_eof t [TT_INT; TT_FLOAT] eq_refl Hnum)) as (t1 & q1 & Hq & ->).
    cbn [bind]. intros H _. injection H as <- <-.
    exists (CNum t), t1, q1. cbn [shape flatten ast List.length app].
    rewrite Nat.add_1_r, Hskip, <- Hnext, Hq. now repeat split. }
  destruct (type_in (type_ t) [TT_PLUS; TT_MINUS]) eqn:Hsign.
  { destruct (advance_in_range k t Hcur
                (type_in_not_eof t [TT_PLUS; TT_MINUS] eq_refl Hsign)) as (t1 & q1 & Hq & ->).
    cbn [bind].
    destruct (factor fuel (parser_at toks (S k))) as [[p2 r]| |] eqn:Hf;
      cbn [bind]; try discriminate.
    destruct (register ParserResult_init r) as [res1 factor_] eqn:Hreg.
    destruct (error res1) as [e1|] eqn:Hres1; unfold has_error;
      rewrite Hres1.
    - intros H Herr. injection H as _ <-. congruence.
    - destruct (register_no_error _ _ _ _ Hreg Hres1) as (_ & Hr & -> & ->).
      assert (Hlt : (S k < List.length toks)%nat).
      { apply nth_error_Some. apply skipn_cons_nth in Hq as [Hq _].
        congruence. }
      destruct (Hfac _ _ _ Hlt Hf Hr)
        as (c0 & t0 & rest & Hs & Hnode & -> & Hskip0).
      intros H _. injection H as <- <-.
      exists (CSign t c0), t0, rest.
      cbn [shape flatten ast List.length app]. unfold is_expr_op.
      rewrite Hsign, Hs, Hnode, Nat.add_succ_r, Hskip, <- Hnext, Hskip0.
      now repeat split. }
  destruct (TokenType_eqb (type_ t) TT_LPAREN) eqn:Hpar.
  { assert (Hne : type_ t <> TT_EOF)
      by (intros He; rewrite He in Hpar; discriminate).
    destruct (advance_in_range k t Hcur Hne) as (t1 & q1 & Hq & ->).
    cbn [bind].
    destruct (expr fuel (parser_at toks (S k))) as [[p2 r]| |] eqn:He;
      cbn [bind]; try discriminate.
    destruct (register ParserResult_init r) as [res1 expr_] eqn:Hreg.
    destruct (error res1) as [e1|] eqn:Hres1; unfold has_error;
      rewrite Hres1.
    - intros H Herr. injection H as _ <-. congruence.
    - destruct (register_no_error _ _ _ _ Hreg Hres1) as (_ & Hr & -> & ->).
      assert (Hlt : (S k < List.length toks)%nat).
      { apply nth_error_Some. apply skipn_cons_nth in Hq as [Hq _].
        congruence. }
      destruct (Hexp _ _ _ Hlt He Hr)
        as (c0 & t0 & rest & Hs & Hnode & -> & Hskip0).
      destruct (skipn_app_nth _ _ _ _ _ Hskip0) as [Hcur2 Hnext2].
      rewrite (current_at _ _ _ Hcur2). cbn [bind].
      destruct (TokenType_eqb (type_ t0) TT_RPAREN) eqn:Hclose.
      + assert (Hne2 : type_ t0 <> TT_EOF)
          by (intros E; rewrite E in Hclose; discriminate).
        destruct (advance_in_range _ t0 Hcur2 Hne2)
          as (t3 & q3 & Hq3 & ->).
        cbn [bind]. intros H _. injection H as <- <-.
        exists (CParen t c0 t0), t3, q3.
        cbn [shape flatten ast List.length app].
        rewrite Hpar, Hclose, Hs, Hnode, length_app. cbn [List.length].
        split; [reflexivity|]. split; [reflexivity|]. split.
        * f_equal. lia.
        * rewrite Hskip, <- Hnext, Hskip0, <- app_assoc. cbn [app].
          rewrite <- Hnext2, Hq3. reflexivity.
      + intros H Herr. apply fail_at_current_error in H. contradiction. }
  intros H Herr. apply fail_at_current_error in H. contradiction.
Qed.

Lemma rules_derive (fuel : nat) :
  derives toks (factor fuel) LFactor
  /\ derives toks (term fuel) LTerm
  /\ derives toks (expr fuel) LExpr.
Proof.
  induction fuel as [|fuel (Hfac & Hterm & Hexp)].
  - repeat split; intros k p' res _ H; discriminate H.
  - split; [now apply factor_derives_step|]. split.
    + intros k p' res Hk. cbn [term].
      apply (bin_op_derives (factor fuel) [TT_MUL; TT_DIV]
               (shape LFactor) (shape LTerm) eq_refl shape_factor_term);
        [|exact Hfac|exact Hk].
      intros l op r Hl Hop Hr. cbn [shape]. unfold is_term_op.
      now rewrite Hop, Hl, Hr.
    + intros k p' res Hk. cbn [expr].
      apply (bin_op_derives (term fuel) [TT_PLUS; TT_MINUS]
               (shape LTerm) (shape LExpr) eq_refl shape_term_expr);
        [|exact Hterm|exact Hk].
      intros l op r Hl Hop Hr. cbn [shape]. unfold is_expr_op.
      rewrite Hop, Hl, Hr. cbn [andb]. apply orb_true_r.
Qed.

End Soundness.

Lemma ends_with_eof_cons (toks : list Token) :
  ends_with_eof toks -> exists t r, toks = t :: r.
Proof.
  intros (ts & e & -> & _). destruct ts as [|t ts]; cbn [app];
    now eexists _, _.
Qed.

(** Without an error [parse] returns what [expr] returned, and the
    cursor is on an end-of-input token. *)
Lemma parse_returns_expr (fuel : nat) (p p' : Parser) (res : ParserResult) :
  parse fuel p = Returned (p', res) ->
  error res = None ->
  expr fuel p = Returned (p', res)
  /\ exists t, current_tok p' = Some t /\ type_ t = TT_EOF.
Proof.
  unfold parse.
  destruct (expr fuel p) as [[p1 r1]| |]; cbn [bind]; try discriminate.
  destruct (error r1) as [e1|] eqn:Hr1; unfold has_error; rewrite Hr1;
    cbn [negb].
  - intros H Herr. injection H as _ <-. congruence.
  - unfold get_current_tok.
    destruct (current_tok p1) as [t|] eqn:Hcur; cbn [bind];
      try discriminate.
    destruct (TokenType_eqb (type_ t) TT_EOF) eqn:Heof; cbn [negb].
    + intros H _. injection H as <- <-. split; [reflexivity|].
      exists t. split; [exact Hcur | now apply TokenType_eqb_eq].
    + intros H Herr. apply fail_at_current_error in H. contradiction.
Qed.

(** X11. [parse] accepts nothing but the grammar: on a token list that
    ends with an end-of-input token, whenever [parse] returns without an
    error the list starts with the tokens of a derivation of [expr]
    followed by an end-of-input token, the node returned is the tree of
    that derivation, and the cursor is on that end-of-input token. *)
Theorem parse_accepts_derivations (toks : list Token) (fuel : nat)
  (p' : Parser) (res : ParserResult) :
  ends_with_eof toks ->
  (p <- Parser_init toks ;; parse fuel p) = Returned (p', res) ->
  error res = None ->
  exists c eof rest,
    shape LExpr c = true
    /\ toks = flatten c ++ eof :: rest
    /\ type_ eof = TT_EOF
    /\ node res = Some (ast c)
    /\ p' = parser_at toks (List.length (flatten c)).
Proof.
  intros Hend.
  destruct (ends_with_eof_cons toks Hend) as (t & r & Htoks).
  rewrite Htoks at 1. rewrite Parser_init_at, <- Htoks. cbn [bind].
  intros Hparse Herr.
  destruct (parse_returns_expr _ _ _ _ Hparse Herr)
    as (Hexpr & t1 & Hcur1 & Heof).
  destruct (rules_derive toks Hend fuel) as (_ & _ & Hderives).
  assert (Hlt : (0 < List.length toks)%nat)
    by (rewrite Htoks; cbn [List.length]; lia).
  destruct (Hderives 0%nat p' res Hlt Hexpr Herr)
    as (c & t0 & rest & Hs & Hnode & -> & Hskip).
  cbn [skipn Nat.add] in *.
  destruct (skipn_app_nth (flatten c) t0 rest toks 0%nat Hskip) as [Hcur _].
  cbn [Nat.add] in Hcur. unfold parser_at in Hcur1. cbn [current_tok] in Hcur1.
  rewrite Hcur in Hcur1. injection Hcur1 as ->.
  exists c, t1, rest. now repeat split.
Qed.

Lemma parse_accepts_derivations_witness :
  let toks := [int_token 4; single_token TT_EOF "<stdin>" "4" 1] in
  exists c eof rest,
    shape LExpr c = true
    /\ toks = flatten c ++ eof :: rest
    /\ type_ eof = TT_EOF
    /\ node (parsed (NumberNode (int_token 4))) = Some (ast c)
    /\ parser_at toks 1 = parser_at toks (List.length (flatten c)).
Proof.
  cbv zeta.
  apply (parse_accepts_derivations
           [int_token 4; single_token TT_EOF "<stdin>" "4" 1] 9).
  - exists [int_token 4], (single_token TT_EOF "<stdin>" "4" 1).
    split; reflexivity.
  - reflexivity.
  - reflexivity.
Defined.

Lemma app_cons_not_last {A : Type} (a : list A) (x : A) (r ts : list A)
  (e : A) :
  a ++ x :: r = ts ++ [e] -> r <> [] -> In x ts.
Proof.
  intros H Hr. destruct (exists_last Hr) as (r' & y & ->).
  change (a ++ x :: r' ++ [y]) with (a ++ (x :: r') ++ [y]) in H.
  rewrite app_assoc in H. apply app_inj_tail in H as [<- _].
  apply in_or_app. right. left. reflexivity.
Qed.

(** X12. Whenever [run] returns without an error it returns a tree: the
    tokens of the text are those of a derivation of [expr] followed by the
    end-of-input token alone, and the node is the tree of that
    derivation. *)
Theorem run_success (fn txt : string) (n : option Node) :
  run fn txt = Returned (n, None) ->
  exists c,
    shape LExpr c = true
    /\ n = Some (ast c)
    /\ tokenize fn txt
       = Returned (flatten c
                   ++ [single_token TT_EOF fn txt (String.length txt)],
                   None).
Proof.
  unfold run. change (make_tokens (Lexer_init fn txt)) with (tokenize fn txt).
  destruct (tokenize_cases fn txt)
    as [(_ & _ & ts & _ & Hrun)
       | [(pre & c & suf & _ & _ & _ & _ & Hrun)
         | (pre & ds & suf & _ & _ & _ & _ & _ & Hrun)]].
  2,3:(rewrite Hrun; cbn [bind]; discriminate).
  destruct (tokenize_inv (fun t => type_ t <> TT_EOF) fn txt _
              ltac:(intros num d; unfold number_of_scan;
                    destruct (d =? 0); discriminate)
              ltac:(intros pre c suf t _ Hcl;
                    apply (classify_single_char c t Hcl))
              Hrun) as (ts' & Heq & Hall).
  apply app_inj_tail in Heq as [<- _].
  rewrite Hrun. cbn [bind].
  assert (Hend : ends_with_eof (ts ++ [eof_token fn txt]))
    by (exists ts, (eof_token fn txt); split; reflexivity).
  destruct (ends_with_eof_cons _ Hend) as (t & r & Htoks).
  rewrite Htoks at 1. rewrite Parser_init_at, <- Htoks. cbn [bind].
  destruct (parse _ _) as [[p1 res]| |] eqn:Hparse; cbn [bind];
    try discriminate.
  intros H. injection H as <- Herr.
  destruct (parse_returns_expr _ _ _ _ Hparse Herr)
    as (Hexpr & t1 & Hcur1 & Heof).
  destruct (rules_derive _ Hend (parse_fuel (ts ++ [eof_token fn txt])))
    as (_ & _ & Hderives).
  assert (Hlt : (0 < List.length (ts ++ [eof_token fn txt]))%nat)
    by (rewrite length_app; cbn [List.length]; lia).
  destruct (Hderives 0%nat p1 res Hlt Hexpr Herr)
    as (c & t0 & rest & Hs & Hnode & -> & Hskip).
  cbn [skipn Nat.add] in *.
  destruct (skipn_app_nth (flatten c) t0 rest _ 0%nat Hskip) as [Hcur _].
  cbn [Nat.add] in Hcur. unfold parser_at in Hcur1. cbn [current_tok] in Hcur1.
  rewrite Hcur in Hcur1. injection Hcur1 as ->.
  exists c. split; [exact Hs|]. split; [exact Hnode|].
  rewrite <- eof_token_single. f_equal. f_equal.
  destruct rest as [|y rest].
  - apply app_inj_tail in Hskip as [Hts _]. now rewrite Hts.
  - exfalso. symmetry in Hskip.
    pose proof (app_cons_not_last _ _ _ _ _ Hskip ltac:(discriminate)) as Hin.
    rewrite Forall_forall in Hall. exact (Hall t1 Hin Heof).
Qed.

Lemma run_success_witness :
  exists c,
    shape LExpr c = true
    /\ Some (NumberNode (int_token 4)) = Some (ast c)
    /\ tokenize "<stdin>" "4"
       = Returned (flatten c ++ [single_token TT_EOF "<stdin>" "4" 1], None).
Proof.
  apply (run_success "<stdin>" "4" (Some (NumberNode (int_token 4)))).
  reflexivity.
Defined.

(** ** Where the errors of the parser come from *)

Lemma advance_cursor_in (toks : list Token) (p p1 : Parser) (t : Token) :
  cursor_in toks p ->
  Parser_advance p = Returned (p1, t) ->
  cursor_in toks p1.
Proof.
  intros [Ht Hin]. unfold Parser_advance.
  destruct (get_current_tok (advance_state p)) as [t1| |]; cbn [bind];
    try discriminate.
  intros H. injection H as <- _.
  unfold advance_state. rewrite Ht.
  destruct (tok_idx p + 1 <? Z.of_nat (List.length toks));
    (split; [reflexivity|]); cbn [current_tok].
  - intros t2 H2. eapply nth_error_In. exact H2.
  - exact Hin.
Qed.

Lemma fail_at_current_reports (toks : list Token) (p p' : Parser)
  (res r : ParserResult) (d : string) :
  cursor_in toks p ->
  In d syntax_details ->
  fail_at_current p res d = Returned (p', r) ->
  p' = p /\ exists e, error r = Some e /\ error_on_token toks e.
Proof.
  intros [Ht Hin] Hd. unfold fail_at_current, get_current_tok,
    get_pos_start, get_pos_end.
  destruct (current_tok p) as [t|] eqn:Hcur; cbn [bind]; try discriminate.
  destruct (pos_start t) as [ps|] eqn:Hps; cbn [bind]; try discriminate.
  destruct (pos_end t) as [pe|] eqn:Hpe; cbn [bind]; try discriminate.
  intros H. injection H as <- <-. split; [reflexivity|].
  exists (InvalidSyntaxError ps pe d). split; [reflexivity|].
  exists t, ps, pe, d. repeat split; auto.
Qed.

Lemma register_reports (toks : list Token) (res r : ParserResult) :
  (forall e, error res = Some e -> error_on_token toks e) ->
  (forall e, error r = Some e -> error_on_token toks e) ->
  forall e, error (fst (register res r)) = Some e -> error_on_token toks e.
Proof.
  intros Hres Hr e. unfold register.
  destruct (error r) as [e1|] eqn:He1; cbn [fst error].
  - intros H. injection H as <-. now apply Hr.
  - apply Hres.
Qed.

Lemma bin_op_loop_reports (toks : list Token) (func : rule)
  (ops : list TokenType) :
  reports_on_tokens toks func ->
  forall fuel p res left_ p' res',
    cursor_in toks p ->
    (forall e, error res = Some e -> error_on_token toks e) ->
    bin_op_loop fuel func ops p res left_ = Returned (p', res') ->
    cursor_in toks p'
    /\ forall e, error res' = Some e -> error_on_token toks e.
Proof.
  intros Hfunc.
  induction fuel as [|fuel IH]; intros p res left_ p' res' Hp Hres;
    [discriminate|].
  cbn [bin_op_loop].
  destruct (get_current_tok p) as [t| |]; cbn [bind]; try discriminate.
  destruct (type_in (type_ t) ops).
  - destruct (Parser_advance p) as [[p1 t1]| |] eqn:Hadv; cbn [bind];
      try discriminate.
    pose proof (advance_cursor_in toks p p1 t1 Hp Hadv) as Hp1.
    destruct (func p1) as [[p2 r]| |] eqn:Hf; cbn [bind]; try discriminate.
    destruct (Hfunc p1 p2 r Hp1 Hf) as [Hp2 Hr].
    pose proof (register_reports toks res r Hres Hr) as Hreg.
    destruct (register res r) as [res1 right_]. cbn [fst] in Hreg.
    now apply IH.
  - intros H. injection H as <- <-. split; [exact Hp | exact Hres].
Qed.

Lemma bin_op_reports (toks : list Token) (func : rule)
  (ops : list TokenType) (fuel : nat) :
  reports_on_tokens toks func ->
  reports_on_tokens toks (bin_op fuel func ops).
Proof.
  intros Hfunc p p' res Hp. unfold bin_op.
  destruct (func p) as [[p1 r]| |] eqn:Hf; cbn [bind]; try discriminate.
  destruct (Hfunc p p1 r Hp Hf) as [Hp1 Hr].
  pose proof (register_reports toks ParserResult_init r
                ltac:(discriminate) Hr) as Hreg.
  destruct (register ParserResult_init r) as [res1 left_]. cbn [fst] in Hreg.
  now apply bin_op_loop_reports.
Qed.

Lemma rules_report (toks : list Token) (fuel : nat) :
  reports_on_tokens toks (factor fuel)
  /\ reports_on_tokens toks (term fuel)
  /\ reports_on_tokens toks (expr fuel).
Proof.
  induction fuel as [|fuel (Hfac & Hterm & Hexp)].
  - split; [|split]; intros p p' res _ H; discriminate H.
  - split; [|split; [apply bin_op_reports, Hfac | apply bin_op_reports, Hterm]].
    intros p p' res Hp. cbn [factor].
    destruct (get_current_tok p) as [t| |]; cbn [bind]; try discriminate.
    destruct (type_in (type_ t) [TT_INT; TT_FLOAT]).
    { destruct (Parser_advance p) as [[p1 t1]| |] eqn:Hadv; cbn [bind];
        try discriminate.
      intros H. injection H as <- <-.
      split; [now apply (advance_cursor_in toks p p1 t1)|discriminate]. }
    destruct (type_in (type_ t) [TT_PLUS; TT_MINUS]).
    { destruct (Parser_advance p) as [[p1 t1]| |] eqn:Hadv; cbn [bind];
        try discriminate.
      pose proof (advance_cursor_in toks p p1 t1 Hp Hadv) as Hp1.
      destruct (factor fuel p1) as [[p2 r]| |] eqn:Hf; cbn [bind];
        try discriminate.
      destruct (Hfac p1 p2 r Hp1 Hf) as [Hp2 Hr].
      pose proof (register_reports toks ParserResult_init r
                    ltac:(discriminate) Hr) as Hreg.
      destruct (register ParserResult_init r) as [res1 factor_].
      cbn [fst] in Hreg.
      destruct (has_error res1); intros H; injection H as <- <-;
        (split; [exact Hp2 | exact Hreg]). }
    destruct (TokenType_eqb (type_ t) TT_LPAREN).
    { destruct (Parser_advance p) as [[p1 t1]| |] eqn:Hadv; cbn [bind];
        try discriminate.
      pose proof (advance_cursor_in toks p p1 t1 Hp Hadv) as Hp1.
      destruct (expr fuel p1) as [[p2 r]| |] eqn:Hf; cbn [bind];
        try discriminate.
      destruct (Hexp p1 p2 r Hp1 Hf) as [Hp2 Hr].
      pose proof (register_reports toks ParserResult_init r
                    ltac:(discriminate) Hr) as Hreg.
      destruct (register ParserResult_init r) as [res1 expr_].
      cbn [fst] in Hreg.
      destruct (has_error res1).
      { intros H; injection H as <- <-. split; [exact Hp2 | exact Hreg]. }
      destruct (get_current_tok p2) as [t2| |]; cbn [bind];
        try discriminate.
      destruct (TokenType_eqb (type_ t2) TT_RPAREN).
      - destruct (Parser_advance p2) as [[p3 t3]| |] eqn:Hadv2; cbn [bind];
          try discriminate.
        intros H. injection H as <- <-.
        split; [now apply (advance_cursor_in toks p2 p3 t3) | exact Hreg].
      - intros H.
        destruct (fail_at_current_reports toks p2 p' res1 res _ Hp2
                    ltac:(right; left; reflexivity) H)
          as (-> & e & He & Hon).
        split; [exact Hp2|]. intros e' He'. congruence. }
    intros H.
    destruct (fail_at_current_reports toks p p' ParserResult_init res _ Hp
                ltac:(left; reflexivity) H) as (-> & e & He & Hon).
    split; [exact Hp|]. intros e' He'. congruence.
Qed.

Lemma parse_reports (toks : list Token) (fuel : nat) (p' : Parser)
  (res : ParserResult) (e : Error) :
  (p <- Parser_init toks ;; parse fuel p) = Returned (p', res) ->
  error res = Some e ->
  error_on_token toks e.
Proof.
  destruct toks as [|t r]; [discriminate|].
  rewrite Parser_init_at. cbn [bind]. unfold parse.
  assert (Hp0 : cursor_in (t :: r) (parser_at (t :: r) 0)).
  { split; [reflexivity|]. intros t1 H1. injection H1 as <-. now left. }
  destruct (rules_report (t :: r) fuel) as (_ & _ & Hexp).
  destruct (expr fuel _) as [[p1 r1]| |] eqn:Hexpr; cbn [bind];
    try discriminate.
  destruct (Hexp _ p1 r1 Hp0 Hexpr) as [Hp1 Hr1].
  destruct (negb (has_error r1)) eqn:Hno.
  - destruct (get_current_tok p1) as [t1| |]; cbn [bind]; try discriminate.
    destruct (TokenType_eqb (type_ t1) TT_EOF); cbn [negb].
    + intros H. injection H as _ <-. apply Hr1.
    + intros H.
      destruct (fail_at_current_reports _ p1 p' r1 res _ Hp1
                  ltac:(right; right; left; reflexivity) H)
        as (_ & e1 & He1 & Hon).
      intros He. congruence.
  - intros H. injection H as _ <-. apply Hr1.
Qed.

(** X13. Every error [parse] returns is an invalid-syntax error with one of
    the three details of the parser, and its span is the start and the
    end position of a token of the list. *)
Theorem parse_error_on_token (toks : list Token) (fuel : nat) (p' : Parser)
  (res : ParserResult) (e : Error) :
  (p <- Parser_init toks ;; parse fuel p) = Returned (p', res) ->
  error res = Some e ->
  error_name e = "Invalid Syntax"
  /\ In (details e) syntax_details
  /\ exists t,
       In t toks
       /\ pos_start t = Some (err_pos_start e)
       /\ pos_end t = Some (err_pos_end e).
Proof.
  intros Hparse Herr.
  destruct (parse_reports toks fuel p' res e Hparse Herr)
    as (t & ps & pe & d & Hin & Hps & Hpe & Hd & ->).
  split; [reflexivity|]. split; [exact Hd|]. now exists t.
Qed.

Lemma parse_error_on_token_witness :
  let fn := "<stdin>" in
  let txt := "(1" in
  let toks := [single_token TT_LPAREN fn txt 0; int_token 1;
               single_token TT_EOF fn txt 2] in
  let e := InvalidSyntaxError (cursor fn txt 2) (cursor fn txt 3)
             "Expected ')' " in
  error_name e = "Invalid Syntax"
  /\ In (details e) syntax_details
  /\ exists t,
       In t toks
       /\ pos_start t = Some (err_pos_start e)
       /\ pos_end t = Some (err_pos_end e).
Proof.
  cbv zeta.
  apply (parse_error_on_token
           [single_token TT_LPAREN "<stdin>" "(1" 0; int_token 1;
            single_token TT_EOF "<stdin>" "(1" 2] 12
           (parser_at [single_token TT_LPAREN "<stdin>" "(1" 0; int_token 1;
                       single_token TT_EOF "<stdin>" "(1" 2] 2)
           (mkParserResult
              (Some (InvalidSyntaxError (cursor "<stdin>" "(1" 2)
                       (cursor "<stdin>" "(1" 3) "Expected ')' ")) None));
    reflexivity.
Defined.

(** X14. Every error [run] returns is rendered as an invalid-syntax error
    with one of the three details of the parser, the source name, and line
    1: a text that reaches the parser has a single line. *)
Theorem run_error_as_string (fn txt : string) (n : option Node) (e : Error) :
  run fn txt = Returned (n, Some e) ->
  exists d,
    In d syntax_details
    /\ as_string e
       = ("Invalid Syntax: " ++ d ++ "File " ++ fn ++ ", line 1")%string.
Proof.
  unfold run. change (make_tokens (Lexer_init fn txt)) with (tokenize fn txt).
  destruct (tokenize_cases fn txt)
    as [(_ & _ & ts & _ & Hrun)
       | [(pre & c & suf & _ & _ & _ & _ & Hrun)
         | (pre & ds & suf & _ & _ & _ & _ & _ & Hrun)]].
  2,3:(rewrite Hrun; cbn [bind]; discriminate).
  destruct (tokenize_inv (placed fn txt) fn txt _
              (number_of_scan_placed fn txt)
              (single_token_placed fn txt) Hrun) as (ts' & Heq & Hall).
  apply app_inj_tail in Heq as [<- _].
  rewrite Hrun. cbn [bind].
  destruct (Parser_init _) as [p0| |] eqn:Hinit; cbn [bind];
    try discriminate.
  destruct (parse _ p0) as [[p1 res]| |] eqn:Hparse; cbn [bind];
    try discriminate.
  intros H. injection H as _ Herr.
  destruct (parse_reports (ts ++ [eof_token fn txt]) _ p1 res e
              ltac:(rewrite Hinit; exact Hparse) Herr)
    as (t & ps & pe & d & Hin & Hps & Hpe & Hd & ->).
  exists d. split; [exact Hd|].
  assert (Hpos : exists i, ps = cursor fn txt i /\ pe = cursor fn txt (S i)).
  { apply in_app_or in Hin as [Hin | [<- | []]].
    - rewrite Forall_forall in Hall.
      destruct (Hall t Hin) as [_ [(_ & Hnone & _) | (i & c & Ht & _)]];
        [congruence|].
      exists i. rewrite Ht in Hps, Hpe. cbn [single_token pos_start pos_end]
        in Hps, Hpe. split; congruence.
    - exists (String.length txt). rewrite eof_token_single in Hps, Hpe.
      cbn [single_token pos_start pos_end] in Hps, Hpe. split; congruence. }
  destruct Hpos as (i & -> & ->). reflexivity.
Qed.

Lemma run_error_as_string_witness :
  exists d,
    In d syntax_details
    /\ as_string (InvalidSyntaxError (cursor "<stdin>" "(1" 2)
                    (cursor "<stdin>" "(1" 3) "Expected ')' ")
       = ("Invalid Syntax: " ++ d ++ "File " ++ "<stdin>" ++ ", line 1")%string.
Proof.
  apply (run_error_as_string "<stdin>" "(1" None). reflexivity.
Defined.

(** ** A token list without its end *)

Lemma stuck_advance (p : Parser) (m : Token) :
  Z.of_nat (List.length (tokens p)) - 1 <= tok_idx p ->
  current_tok p = Some m ->
  Parser_advance p = Returned (advance_state p, m)
  /\ tokens (advance_state p) = tokens p
  /\ Z.of_nat (List.length (tokens p)) - 1 <= tok_idx (advance_state p)
  /\ current_tok (advance_state p) = Some m.
Proof.
  intros Hidx Hcur.
  assert (Hst : advance_state p
                = mkParser (tokens p) (tok_idx p + 1) (Some m)).
  { unfold advance_state.
    replace (tok_idx p + 1 <? Z.of_nat (List.length (tokens p))) with false
      by (symmetry; apply Z.ltb_ge; lia).
    now rewrite Hcur. }
  unfold Parser_advance, get_current_tok. rewrite Hst.
  cbn [current_tok tokens tok_idx bind].
  split; [reflexivity|]. split; [reflexivity|]. split; [lia|reflexivity].
Qed.

Lemma stuck_factor (p : Parser) (m : Token) (ps pe : Position) (fuel : nat) :
  current_tok p = Some m ->
  type_in (type_ m) [TT_MUL; TT_DIV] = true ->
  pos_start m = Some ps ->
  pos_end m = Some pe ->
  factor fuel p = OutOfFuel
  \/ exists r, factor fuel p = Returned (p, r).
Proof.
  intros Hcur Hty Hps Hpe. destruct fuel as [|fuel]; [now left|]. right.
  cbn [factor]. unfold get_current_tok. rewrite Hcur. cbn [bind].
  replace (type_in (type_ m) [TT_INT; TT_FLOAT]) with false
    by (destruct (type_ m); (reflexivity || discriminate)).
  replace (type_in (type_ m) [TT_PLUS; TT_MINUS]) with false
    by (destruct (type_ m); (reflexivity || discriminate)).
  replace (TokenType_eqb (type_ m) TT_LPAREN) with false
    by (destruct (type_ m); (reflexivity || discriminate)).
  unfold fail_at_current, get_current_tok, get_pos_start, get_pos_end.
  rewrite Hcur. cbn [bind]. rewrite Hps, Hpe. cbn [bind].
  now eexists.
Qed.

Lemma stuck_loop (m : Token) (ps pe : Position) (f : nat) :
  type_in (type_ m) [TT_MUL; TT_DIV] = true ->
  pos_start m = Some ps ->
  pos_end m = Some pe ->
  forall fuel p res left_,
    Z.of_nat (List.length (tokens p)) - 1 <= tok_idx p ->
    current_tok p = Some m ->
    bin_op_loop fuel (factor f) [TT_MUL; TT_DIV] p res left_ = OutOfFuel.
Proof.
  intros Hty Hps Hpe.
  induction fuel as [|fuel IH]; intros p res left_ Hidx Hcur; [reflexivity|].
  cbn [bin_op_loop]. unfold get_current_tok. rewrite Hcur. cbn [bind].
  rewrite Hty.
  destruct (stuck_advance p m Hidx Hcur) as (-> & Htoks & Hidx1 & Hcur1).
  cbn [bind]. rewrite <- Htoks in Hidx1.
  destruct (stuck_factor (advance_state p) m ps pe f Hcur1 Hty Hps Hpe)
    as [-> | [r ->]]; [reflexivity|].
  cbn [bind]. destruct (register res r) as [res1 right_].
  now apply IH.
Qed.

(** X15. The end-of-input token is needed. With the cursor on the last
    token of a list, that token being a [*] or a [/] as the lexer makes
    it, the loop of [bin_op] consumes it, fails on the missing operand,
    and finds it again under the cursor, without end: [parse] does not
    finish, whatever the fuel. *)
Theorem parse_needs_eof (pre : list Token) (m : Token) (ps pe : Position)
  (fuel : nat) :
  type_in (type_ m) [TT_MUL; TT_DIV] = true ->
  pos_start m = Some ps ->
  pos_end m = Some pe ->
  parse fuel (parser_at (pre ++ [m]) (List.length pre)) = OutOfFuel.
Proof.
  intros Hty Hps Hpe.
  set (p := parser_at (pre ++ [m]) (List.length pre)).
  assert (Hcur : current_tok p = Some m).
  { unfold p, parser_at. cbn [current_tok].
    now rewrite nth_error_app2, Nat.sub_diag by lia. }
  assert (Hidx : Z.of_nat (List.length (tokens p)) - 1 <= tok_idx p).
  { unfold p, parser_at. cbn [tokens tok_idx].
    rewrite length_app. cbn [List.length]. lia. }
  assert (Hterm : forall f, term f p = OutOfFuel).
  { intros [|f]; [reflexivity|]. cbn [term]. unfold bin_op.
    destruct (stuck_factor p m ps pe f Hcur Hty Hps Hpe) as [-> | [r ->]];
      [reflexivity|].
    cbn [bind]. destruct (register ParserResult_init r) as [res1 left_].
    now apply (stuck_loop m ps pe). }
  unfold parse. destruct fuel as [|f]; [reflexivity|].
  cbn [expr]. unfold bin_op. now rewrite Hterm.
Qed.

Lemma parse_needs_eof_witness :
  parse 1000
    (parser_at ([int_token 1] ++ [single_token TT_MUL "<stdin>" "1*" 1]) 1)
  = OutOfFuel.
Proof.
  apply (parse_needs_eof [int_token 1] (single_token TT_MUL "<stdin>" "1*" 1)
           (cursor "<stdin>" "1*" 1) (cursor "<stdin>" "1*" 2) 1000);
    reflexivity.
Defined.
